(** * Build scripts of the world dataset: key sorting, high-res stripping and
      WKT-to-SVG conversion

    The repository holds three small scripts that rewrite [world.json]:
    - [sort-regions] (src/unnamed/part_000) reorders the [regions] object;
    - the high-res stripping script (second half of
      src/util/convert-wkt-to-svg.ts) keeps the [high-res] area of a region;
    - [convert-wkt-to-svg.ts] projects the [medium-res] geometry of every
      region to an SVG path.

    The scripts are embedded as Rocq functions.  A JavaScript object is an
    ordered list of own properties, a thrown exception is a value of
    [Completion], and the module-level variable [globalPathGenerator] of the
    converter is threaded through as explicit state.  The libraries the
    converter calls ([wellknown], [d3-geo]) are not part of the repository;
    they are Section variables of the converter.  Reading and writing the
    files, [JSON.parse], [JSON.stringify] and the [console.log] messages are
    left out: a script is the function from the parsed input to the value it
    writes. *)

From Stdlib Require Import String Ascii List NArith ZArith Bool Arith Lia.
From Stdlib Require Import DecimalString Permutation Sorted.
From Stdlib Require OrderedTypeEx.
Import ListNotations.
Local Open Scope string_scope.
Local Open Scope list_scope.

(* ================================================================== *)
(** * Part I.  Definitions                                              *)
(* ================================================================== *)

(** ** The fragment of JavaScript the scripts rely on *)

Module JS.

(** A string is a [String.string], one character for each code unit (region
    codes and WKT texts are ASCII).  [String.length] is the [length]
    property and [String.leb] the code-unit order that [Array.prototype.sort]
    uses when it is called without a comparator. *)

(** [ToString] of a non-negative integer. *)
Definition toString (n : N) : string := NilZero.string_of_uint (N.to_uint n).

(** A property key is an array index when it is the canonical decimal
    spelling of an integer below 2^32 - 1: ["0"], ["7"], ["1000"], but not
    ["007"] nor ["usa"]. *)
Definition arrayIndex (k : string) : option N :=
  match NilEmpty.uint_of_string k with
  | Some u =>
      let n := N.of_uint u in
      if (n <? 4294967295)%N && (toString n =? k) then Some n else None
  | None => None
  end.

Definition isArrayIndex (k : string) : bool :=
  match arrayIndex k with Some _ => true | None => false end.

(** The accessor inherited from [Object.prototype]: assigning to it changes
    the prototype of the object and creates no own property. *)
Definition proto : string := "__proto__".

(** A key that is neither an array index nor [__proto__]; for such keys own
    properties are enumerated in the order of their creation. *)
Definition ordinaryKey (k : string) : bool :=
  negb (isArrayIndex k) && negb (k =? proto).

(** [comesBefore k k'] : a new property [k] is enumerated before the
    existing property [k']. *)
Definition comesBefore (k k' : string) : bool :=
  match arrayIndex k, arrayIndex k' with
  | Some n, Some n' => (n <? n')%N
  | Some _, None => true
  | None, _ => false
  end.

(** [inOrder k k'] : [k] may precede [k'] in the own keys of an object. *)
Definition inOrder (k k' : string) : bool :=
  negb (k =? k') && (comesBefore k k' || negb (isArrayIndex k')).

(** The own keys of an object: no key twice, array indices first in
    ascending numeric order, then the other keys. *)
Fixpoint wfKeys (ks : list string) : bool :=
  match ks with
  | [] => true
  | k :: rest => forallb (inOrder k) rest && wfKeys rest
  end.

(** A plain object, as [JSON.parse] builds it and [JSON.stringify] writes
    it: its own enumerable properties in enumeration order. *)
Definition Obj (V : Type) : Type := list (string * V).

Section Objects.
Context {V : Type}.

(** [Object.keys], [Object.values], [Object.entries]. *)
Definition keys (o : Obj V) : list string := map fst o.
Definition values (o : Obj V) : list V := map snd o.
Definition entries (o : Obj V) : list (string * V) := o.

Definition wf (o : Obj V) : Prop := wfKeys (keys o) = true.

(** [o[k]] for an own property; [None] stands for [undefined]. *)
Fixpoint get (o : Obj V) (k : string) : option V :=
  match o with
  | [] => None
  | (k', v) :: o' => if k =? k' then Some v else get o' k
  end.

(** Creation or update of the data property [k]. *)
Fixpoint define (k : string) (v : V) (o : Obj V) : Obj V :=
  match o with
  | [] => [(k, v)]
  | (k', v') :: o' =>
      if k =? k' then (k, v) :: o'
      else if comesBefore k k' then (k, v) :: (k', v') :: o'
      else (k', v') :: define k v o'
  end.

(** [o[k] = v] on a plain object: for [__proto__] the setter inherited from
    [Object.prototype] runs, and the own properties stay as they are. *)
Definition set (k : string) (v : V) (o : Obj V) : Obj V :=
  if k =? proto then o else define k v o.

(** In-place mutation of the object stored under [k]: the property keeps
    its position. *)
Fixpoint mutate (k : string) (f : V -> V) (o : Obj V) : Obj V :=
  match o with
  | [] => []
  | (k', v) :: o' => if k =? k' then (k', f v) :: o' else (k', v) :: mutate k f o'
  end.
End Objects.

(** [Array.prototype.sort()] on an array of strings.  The order is total
    and antisymmetric, so the result does not depend on the algorithm. *)
Fixpoint insert (k : string) (l : list string) : list string :=
  match l with
  | [] => [k]
  | x :: l' => if (k <=? x)%string then k :: l else x :: insert k l'
  end.

Definition sort (l : list string) : list string := fold_right insert [] l.

(** Alphabetical order, as [sort] understands it. *)
Definition le (a b : string) : Prop := (a <=? b)%string = true.

Definition notProto (key : string) : bool := negb (key =? proto).

Definition nonIndex (key : string) : bool := negb (isArrayIndex key).


(** Truthiness of an optional object or array ([undefined] is falsy, every
    object is truthy). *)
Definition truthy {A : Type} (x : option A) : bool :=
  match x with Some _ => true | None => false end.

End JS.

(** ** The dataset (interfaces of src/util/convert-wkt-to-svg.ts) *)

Record SourceMetadata : Type := {
  layerName : string;
  entityIdentifier : string;
  remark : option string
}.

Record AreaDev : Type := {
  areaWKT : string;
  sourceMetadata : SourceMetadata
}.

(** The three resolution tiers ['low-res'], ['medium-res'], ['high-res'],
    each optional. *)
Record AreasDev : Type := {
  low_res : option AreaDev;
  medium_res : option AreaDev;
  high_res : option AreaDev
}.

Inductive ReferenceType : Type := regionReference | territoryReference.

Record AreaReference : Type := {
  referenceType : ReferenceType;
  referenceId : string
}.

Inductive ControlType : Type := CONTROLLED | CLAIMED.

Record DisputedRegion : Type := {
  controlType : ControlType;
  areaReference : AreaReference
}.

(** The interface declares [areas] as required, but both scripts test
    whether it is there ([!region.areas], [region.areas && ...]); the field
    is therefore optional here. *)
Module Dev.
Record RegionDev : Type := {
  regionName : string;
  areas : option AreasDev;
  disputedRegions : option (list DisputedRegion)
}.

Record WorldDataDev : Type := {
  commonTerritories : option (JS.Obj string);
  regions : JS.Obj RegionDev
}.
End Dev.

Record AreaProd : Type := { areaSVG : string }.

Record AreasProd : Type := {
  low_res_prod : option AreaProd;
  medium_res_prod : option AreaProd;
  high_res_prod : option AreaProd
}.

Module Prod.
Record RegionProd : Type := {
  regionName : string;
  areas : AreasProd;
  disputedRegions : option (list DisputedRegion)
}.

Record WorldDataProd : Type := {
  width : Z;
  height : Z;
  commonTerritories : option (JS.Obj string);
  regions : JS.Obj RegionProd
}.
End Prod.

(** ** sort-regions (src/unnamed/part_000) *)

Module SortRegions.
Section Script.
Context {V : Type}.
Variable regions : JS.Obj V.

(** The [forEach] over [Object.keys(data.regions)] pushes a key to
    [threeCharKeys] when [key.length === 3] and to [longerKeys]
    otherwise. *)
Definition isThreeChar (key : string) : bool := (String.length key =? 3)%nat.

Definition pushed : list string * list string :=
  partition isThreeChar (JS.keys regions).

(** After [threeCharKeys.sort()] and [longerKeys.sort()]. *)
Definition threeCharKeys : list string := JS.sort (fst pushed).
Definition longerKeys : list string := JS.sort (snd pushed).

Definition sortedKeys : list string := threeCharKeys ++ longerKeys.

(** [sortedKeys.reduce((acc, key) => { acc[key] = data.regions[key];
    return acc; }, {})].  Every key is an own key of [data.regions], so
    the value read is never [undefined]. *)
Definition assign (acc : JS.Obj V) (key : string) : JS.Obj V :=
  match JS.get regions key with
  | Some region => JS.set key region acc
  | None => acc
  end.

Definition sortedRegions : JS.Obj V := fold_left assign sortedKeys [].

(** The property an assignment creates when the key is new and ordinary. *)
Definition pick (key : string) : JS.Obj V :=
  match JS.get regions key with
  | Some region => [(key, region)]
  | None => []
  end.
End Script.

(** The order the specification states for the keys of the rewritten
    mapping: the 3-character keys in alphabetical order, then the longer
    keys in alphabetical order. *)
Definition statedOrder (ks : list string) : list string :=
  JS.sort (filter (fun key => (String.length key =? 3)%nat) ks)
  ++ JS.sort (filter (fun key => (3 <? String.length key)%nat) ks).
End SortRegions.

(** ** The high-res stripping loop (src/util/convert-wkt-to-svg.ts, 204-209) *)

Module StripHighRes.
Import Dev.

(** The body of the loop, as a function of the region it mutates. *)
Definition strip (region : RegionDev) : RegionDev :=
  match areas region with
  | Some a =>
      match high_res a with
      | Some h =>
          {| regionName := regionName region;
             areas := Some {| low_res := None; medium_res := None; high_res := Some h |};
             disputedRegions := disputedRegions region |}
      | None => region
      end
  | None => region
  end.

(** [for (const regionCode in data.regions) { const region =
    data.regions[regionCode]; ... }]: the region object is mutated in
    place. *)
Definition step (regions : JS.Obj RegionDev) (regionCode : string) : JS.Obj RegionDev :=
  JS.mutate regionCode strip regions.

Definition stripRegions (regions : JS.Obj RegionDev) : JS.Obj RegionDev :=
  fold_left step (JS.keys regions) regions.

Definition stripData (data : WorldDataDev) : WorldDataDev :=
  {| commonTerritories := commonTerritories data;
     regions := stripRegions (regions data) |}.
End StripHighRes.

(** ** convert-wkt-to-svg.ts *)

(** The exceptions the converter can raise: the two [throw new Error(...)]
    of [convertWKTToSVG], and the [TypeError] of the runtime when a property
    of [undefined] is read or [undefined] is called. *)
Inductive Exception : Type :=
| Error (message : string)
| TypeError (message : string).

Inductive Completion (A : Type) : Type :=
| Normal (value : A)
| Throw (e : Exception).
Arguments Normal {A} value.
Arguments Throw {A} e.

Module Convert.

(** SVG dimensions in 16:9 ratio. *)
Definition WIDTH : Z := 1600.
Definition HEIGHT : Z := 900.

Section Converter.
(** What [wellknown] and [d3-geo] provide.  [parse] returns [null] on text
    it cannot read.  The calls into [d3-geo] end in a completion: [fitSize]
    and the path generator stream the geometry through the projection, and
    throw on some geometries that [wellknown] does read (a polygon ring of a
    single point makes the clip stage read a coordinate of [undefined]);
    when the generator returns, it returns a path or [null], the latter
    when it has drawn nothing. *)
Variable GeoJSON : Type.
Variable parse : string -> option GeoJSON.
Variable Projection : Type.

Record Feature : Type := { geometry : GeoJSON }.
Definition FeatureCollection : Type := list Feature.

(** [d3.geoMercator().fitSize(size, collection)] and
    [d3.geoPath().projection(projection)]. *)
Variable fitSize : Z * Z -> FeatureCollection -> Completion Projection.
Variable geoPath : Projection -> GeoJSON -> Completion (option string).

Definition GeoPath : Type := GeoJSON -> Completion (option string).

(** [let globalPathGenerator: d3.GeoPath;] is [undefined] until
    [initializeGlobalProjection] has run. *)
Record Globals : Type := { globalPathGenerator : option GeoPath }.

Definition uninitialized : Globals := {| globalPathGenerator := None |}.

(** Computations that read and write the module state and may throw. *)
Definition M (A : Type) : Type := Globals -> Completion A * Globals.

Definition ret {A : Type} (a : A) : M A := fun g => (Normal a, g).

Definition throw {A : Type} (e : Exception) : M A := fun g => (Throw e, g).

Definition bind {A B : Type} (m : M A) (k : A -> M B) : M B :=
  fun g =>
    match m g with
    | (Normal a, g') => k a g'
    | (Throw e, g') => (Throw e, g')
    end.

Definition lift {A : Type} (c : Completion A) : M A := fun g => (c, g).

Definition readGlobals : M Globals := fun g => (Normal g, g).

Definition writeGlobals (g' : Globals) : M unit := fun _ => (Normal tt, g').

Notation "x <- m ;; k" := (bind m (fun x => k))
  (at level 61, m at next level, right associativity).

(** The outcome of a run. *)
Definition outcome {A : Type} (r : Completion A * Globals) : Completion A := fst r.
Definition globalsAfter {A : Type} (r : Completion A * Globals) : Globals := snd r.

(** One iteration of the loop that collects the high-res geometries:
    [if (region.areas?.['high-res']?.areaWKT)] holds when the text is
    there and not empty. *)
Definition collect (allFeatures : list GeoJSON) (region : Dev.RegionDev) : list GeoJSON :=
  match Dev.areas region with
  | Some areas =>
      match high_res areas with
      | Some highRes =>
          if negb (areaWKT highRes =? "") then
            match parse (areaWKT highRes) with
            | Some geojson => allFeatures ++ [geojson]
            | None => allFeatures
            end
          else allFeatures
      | None => allFeatures
      end
  | None => allFeatures
  end.

Definition allFeatures (worldDataDev : Dev.WorldDataDev) : list GeoJSON :=
  fold_left collect (JS.values (Dev.regions worldDataDev)) [].

Definition initializeGlobalProjection (worldDataDev : Dev.WorldDataDev) : M unit :=
  let featureCollection : FeatureCollection :=
    map (fun f => {| geometry := f |}) (allFeatures worldDataDev) in
  projection <- lift (fitSize (WIDTH, HEIGHT) featureCollection) ;;
  writeGlobals {| globalPathGenerator := Some (geoPath projection) |}.

(** The two messages of [convertWKTToSVG]; both end with the first 100
    code units of the text. *)
Definition parseFailure (wkt : string) : Exception :=
  Error ("Failed to parse WKT: " ++ substring 0 100 wkt ++ "...")%string.

Definition pathFailure (wkt : string) : Exception :=
  Error ("Failed to generate SVG path for WKT: " ++ substring 0 100 wkt ++ "...")%string.

Definition notAFunction : Exception :=
  TypeError "globalPathGenerator is not a function".

Definition convertWKTToSVG (wkt : string) : M string :=
  match parse wkt with
  | None => throw (parseFailure wkt)
  | Some geojson =>
      g <- readGlobals ;;
      match globalPathGenerator g with
      | None => throw notAFunction
      | Some generator =>
          svgPath <- lift (generator geojson) ;;
          match svgPath with
          | None => throw (pathFailure wkt)
          | Some svgPath =>
              if svgPath =? "" then throw (pathFailure wkt) else ret svgPath
          end
      end
  end.

Definition convertAreaDev (areaDev : AreaDev) : M AreaProd :=
  svgPath <- convertWKTToSVG (areaWKT areaDev) ;;
  ret {| areaSVG := svgPath |}.

(** [convertAreaDev(areasDev['medium-res'])]: reading [areaWKT] of
    [undefined] is a [TypeError]. *)
Definition convertAreasDev (areasDev : AreasDev) : M AreasProd :=
  match medium_res areasDev with
  | None => throw (TypeError "Cannot read properties of undefined (reading 'areaWKT')")
  | Some areaDev =>
      areaProd <- convertAreaDev areaDev ;;
      ret {| low_res_prod := None; medium_res_prod := Some areaProd; high_res_prod := None |}
  end.

Definition convertRegionDev (regionDev : Dev.RegionDev) : M Prod.RegionProd :=
  match Dev.areas regionDev with
  | None => throw (TypeError "Cannot read properties of undefined (reading 'medium-res')")
  | Some areasDev =>
      areasProd <- convertAreasDev areasDev ;;
      let regionProd :=
        {| Prod.regionName := Dev.regionName regionDev;
           Prod.areas := areasProd;
           Prod.disputedRegions := None |} in
      (* Preserve disputedRegions if they exist *)
      if JS.truthy (Dev.disputedRegions regionDev) then
        ret {| Prod.regionName := Prod.regionName regionProd;
               Prod.areas := Prod.areas regionProd;
               Prod.disputedRegions := Dev.disputedRegions regionDev |}
      else ret regionProd
  end.

(** The test of the conversion loop, [regionCode.length > 3 ||
    !worldDataDev.regions[regionCode].areas ||
    worldDataDev.regions[regionCode].areas["medium-res"] === undefined],
    evaluated left to right. *)
Definition skipped (worldDataDev : Dev.WorldDataDev) (regionCode : string) : Completion bool :=
  if (3 <? String.length regionCode)%nat then Normal true
  else
    match JS.get (Dev.regions worldDataDev) regionCode with
    | None => Throw (TypeError "Cannot read properties of undefined (reading 'areas')")
    | Some region =>
        match Dev.areas region with
        | None => Normal true
        | Some areas => Normal (negb (JS.truthy (medium_res areas)))
        end
    end.

Definition withRegion (worldDataProd : Prod.WorldDataProd)
    (regionCode : string) (regionProd : Prod.RegionProd) : Prod.WorldDataProd :=
  {| Prod.width := Prod.width worldDataProd;
     Prod.height := Prod.height worldDataProd;
     Prod.commonTerritories := Prod.commonTerritories worldDataProd;
     Prod.regions := JS.set regionCode regionProd (Prod.regions worldDataProd) |}.

(** [for (const [regionCode, regionDev] of Object.entries(worldDataDev.regions))]. *)
Fixpoint convertRegions (worldDataDev : Dev.WorldDataDev)
    (todo : list (string * Dev.RegionDev)) (worldDataProd : Prod.WorldDataProd)
    : M Prod.WorldDataProd :=
  match todo with
  | [] => ret worldDataProd
  | (regionCode, regionDev) :: rest =>
      skip <- lift (skipped worldDataDev regionCode) ;;
      if (skip : bool) then convertRegions worldDataDev rest worldDataProd
      else
        regionProd <- convertRegionDev regionDev ;;
        convertRegions worldDataDev rest (withRegion worldDataProd regionCode regionProd)
  end.

Definition convertWorldData (worldDataDev : Dev.WorldDataDev) : M Prod.WorldDataProd :=
  (* Initialize global projection before converting any regions *)
  _ <- initializeGlobalProjection worldDataDev ;;
  let worldDataProd :=
    {| Prod.width := WIDTH;
       Prod.height := HEIGHT;
       Prod.commonTerritories := None;
       Prod.regions := [] |} in
  (* Preserve commonTerritories if they exist *)
  let worldDataProd :=
    if JS.truthy (Dev.commonTerritories worldDataDev) then
      {| Prod.width := Prod.width worldDataProd;
         Prod.height := Prod.height worldDataProd;
         Prod.commonTerritories := Dev.commonTerritories worldDataDev;
         Prod.regions := Prod.regions worldDataProd |}
    else worldDataProd in
  (* Convert all regions *)
  convertRegions worldDataDev (JS.entries (Dev.regions worldDataDev)) worldDataProd.

(** *** Vocabulary of the statements *)

(** The inclusion test the specification states: at most 3 characters, an
    [areas] field, a [medium-res] entry; as a proposition and as a test. *)
Definition included (regionCode : string) (regionDev : Dev.RegionDev) : Prop :=
  String.length regionCode <= 3
  /\ exists areasDev areaDev,
       Dev.areas regionDev = Some areasDev /\ medium_res areasDev = Some areaDev.

Definition qualifies (regionCode : string) (regionDev : Dev.RegionDev) : bool :=
  (String.length regionCode <=? 3)%nat &&
  match Dev.areas regionDev with
  | Some areas => JS.truthy (medium_res areas)
  | None => false
  end.

(** A region whose high-res text is there, is not empty and can be read:
    the regions [initializeGlobalProjection] fits the projection to. *)
Definition suppliesHighRes (regionDev : Dev.RegionDev) : bool :=
  match Dev.areas regionDev with
  | Some areas =>
      match high_res areas with
      | Some highRes =>
          negb (areaWKT highRes =? "") && JS.truthy (parse (areaWKT highRes))
      | None => false
      end
  | None => false
  end.

(** The call of [fitSize] in [initializeGlobalProjection], and the module
    state once the generator of the projection it returned is installed. *)
Definition fit (worldDataDev : Dev.WorldDataDev) : Completion Projection :=
  fitSize (WIDTH, HEIGHT) (map Build_Feature (allFeatures worldDataDev)).

Definition fitted (projection : Projection) : Globals :=
  {| globalPathGenerator := Some (geoPath projection) |}.

(** [worldDataProd] when the conversion loop starts. *)
Definition emptyProd (worldDataDev : Dev.WorldDataDev) : Prod.WorldDataProd :=
  {| Prod.width := WIDTH;
     Prod.height := HEIGHT;
     Prod.commonTerritories := Dev.commonTerritories worldDataDev;
     Prod.regions := [] |}.

(** The region a qualifying entry is converted to, if its conversion
    returns. *)
Definition converted (g : Globals) (regionDev : Dev.RegionDev) : option Prod.RegionProd :=
  match outcome (convertRegionDev regionDev g) with
  | Normal regionProd => Some regionProd
  | Throw _ => None
  end.
End Converter.

Arguments outcome {GeoJSON A} r.
Arguments globalsAfter {GeoJSON A} r.
Arguments Build_Globals {GeoJSON} globalPathGenerator.
Arguments globalPathGenerator {GeoJSON} g.
Arguments converted {GeoJSON} parse g regionDev.
Arguments suppliesHighRes {GeoJSON} parse regionDev.
Arguments fit {GeoJSON} parse {Projection} fitSize worldDataDev.
Arguments fitted {GeoJSON} {Projection} geoPath projection.
End Convert.

(** ** Sample data *)

Module Samples.
Import Dev.

Definition metadata : SourceMetadata :=
  {| layerName := "admin_0"; entityIdentifier := "ne"; remark := None |}.

Definition area (wkt : string) : AreaDev :=
  {| areaWKT := wkt; sourceMetadata := metadata |}.

(** A region without geometry. *)
Definition named (name : string) : RegionDev :=
  {| regionName := name; areas := None; disputedRegions := None |}.

(** The keys of the sorting example of the specification. *)
Definition fiveRegions : JS.Obj RegionDev :=
  [ ("usa", named "United States"); ("california", named "California");
    ("can", named "Canada"); ("texas", named "Texas");
    ("gbr", named "United Kingdom") ].

(** [{"abc": ..., "1000": ...}] as [JSON.parse] holds it. *)
Definition indexKeyed : JS.Obj RegionDev :=
  [ ("1000", named "Thousand"); ("abc", named "Abc") ].

(** Keys of one, two, three and four characters. *)
Definition shortKeyed : JS.Obj RegionDev :=
  [ ("usa", named "United States"); ("eu", named "Europe");
    ("x", named "Unknown"); ("can", named "Canada"); ("asia", named "Asia") ].

End Samples.

Module StripSamples.
Import Dev Samples.

Definition polygon : string := "POLYGON ((0 0, 10 0, 10 10, 0 10, 0 0))".

(** A region with the three tiers, and one with coarse geometry only. *)
Definition fullAreas : AreasDev :=
  {| low_res := Some (area polygon);
     medium_res := Some (area polygon);
     high_res := Some (area polygon) |}.

Definition coarseAreas : AreasDev :=
  {| low_res := Some (area polygon);
     medium_res := Some (area polygon);
     high_res := None |}.

Definition full : RegionDev :=
  {| regionName := "Canada"; areas := Some fullAreas; disputedRegions := None |}.

Definition coarse : RegionDev :=
  {| regionName := "Atlantis"; areas := Some coarseAreas; disputedRegions := None |}.

Definition world : WorldDataDev :=
  {| commonTerritories := None;
     regions := [("can", full); ("atl", coarse)] |}.
End StripSamples.

(** ** A stand-in for the libraries, to run the converter on sample data *)

Module Toy.
(** The geometry is the text itself; a text is read when it starts with
    [POLYGON]. *)
Definition GeoJSON : Type := string.

Definition parse (wkt : string) : option GeoJSON :=
  if String.prefix "POLYGON" wkt then Some wkt else None.

(** A polygon whose ring has a single point: [wellknown] reads it, and
    [d3-geo] throws when it streams it, with the [TypeError] of reading the
    first coordinate of a point that is not there. *)
Definition onePoint : string := "POLYGON ((0 0))".

Definition ringError : Exception :=
  TypeError "Cannot read properties of undefined (reading '0')".

(** The projection records how many features it was fitted to. *)
Definition Projection : Type := nat.

Definition fitSize (size : Z * Z) (collection : Convert.FeatureCollection GeoJSON)
  : Completion Projection :=
  if existsb (fun feature => Convert.geometry GeoJSON feature =? onePoint) collection
  then Throw ringError
  else Normal (List.length collection).

(** Nothing is drawn for an empty polygon. *)
Definition geoPath (projection : Projection) (geojson : GeoJSON)
  : Completion (option string) :=
  if geojson =? onePoint then Throw ringError
  else if geojson =? "POLYGON EMPTY" then Normal None
  else Normal (Some "M0,0L10,0L10,10L0,10Z").

Definition initializeGlobalProjection :=
  Convert.initializeGlobalProjection GeoJSON parse Projection fitSize geoPath.
Definition convertWKTToSVG := Convert.convertWKTToSVG GeoJSON parse.
Definition convertRegionDev := Convert.convertRegionDev GeoJSON parse.
Definition convertWorldData :=
  Convert.convertWorldData GeoJSON parse Projection fitSize geoPath.
End Toy.

Module ConvertSamples.
Import Dev Samples StripSamples.

Definition claim : DisputedRegion :=
  {| controlType := CLAIMED;
     areaReference := {| referenceType := regionReference; referenceId := "atl" |} |}.

Definition canada : RegionDev :=
  {| regionName := "Canada"; areas := Some fullAreas; disputedRegions := Some [claim] |}.

Definition lowOnly : RegionDev :=
  {| regionName := "Lowland";
     areas := Some {| low_res := Some (area polygon); medium_res := None; high_res := None |};
     disputedRegions := None |}.

Definition garbled : RegionDev :=
  {| regionName := "Garbled";
     areas := Some {| low_res := None;
                      medium_res := Some (area "POLYGUN ((0 0, 1 1))");
                      high_res := None |};
     disputedRegions := None |}.

(** The end-to-end example of the specification: a region with low-res
    geometry only and a region with the three tiers. *)
Definition twoRegions : WorldDataDev :=
  {| commonTerritories := Some [("kosovo", "xkx")];
     regions := [("low", lowOnly); ("can", canada)] |}.

(** No region has a high-res area. *)
Definition noHighRes : WorldDataDev :=
  {| commonTerritories := None; regions := [("atl", coarse)] |}.

(** The text of the second region cannot be read. *)
Definition oneGarbled : WorldDataDev :=
  {| commonTerritories := None;
     regions := [("can", canada); ("grb", garbled); ("usa", full)] |}.

(** A region whose medium-res ring has a single point, and one that has
    such a ring as its high-res area only. *)
Definition pointed : RegionDev :=
  {| regionName := "Pointed";
     areas := Some {| low_res := None;
                      medium_res := Some (area Toy.onePoint);
                      high_res := None |};
     disputedRegions := None |}.

Definition pointedHighRes : RegionDev :=
  {| regionName := "Pointed";
     areas := Some {| low_res := None;
                      medium_res := None;
                      high_res := Some (area Toy.onePoint) |};
     disputedRegions := None |}.

(** The second region is drawn from a ring of one point. *)
Definition onePointMedium : WorldDataDev :=
  {| commonTerritories := None;
     regions := [("can", canada); ("pnt", pointed)] |}.

(** The second region is skipped by the conversion loop, and its high-res
    ring has one point. *)
Definition onePointHighRes : WorldDataDev :=
  {| commonTerritories := None;
     regions := [("can", canada); ("abcd", pointedHighRes)] |}.
End ConvertSamples.

(** ** Vocabulary of the further properties *)

Module Further.

(** An entry of [worldDataDev.regions] that the conversion loop does not
    skip. *)
Definition survives (entry : string * Dev.RegionDev) : bool :=
  Convert.qualifies (fst entry) (snd entry).

(** The property the conversion loop adds to [worldDataProd.regions] for an
    entry, under the module state [g]. *)
Definition emitted {GeoJSON : Type} (parse : string -> option GeoJSON)
    (g : Convert.Globals GeoJSON) (entry : string * Dev.RegionDev)
    : JS.Obj Prod.RegionProd :=
  if survives entry then
    match Convert.converted parse g (snd entry) with
    | Some regionProd => [(fst entry, regionProd)]
    | None => []
    end
  else [].

(** A region that has a [high-res] area. *)
Definition hasHighRes (regionDev : Dev.RegionDev) : bool :=
  match Dev.areas regionDev with
  | Some areas => JS.truthy (high_res areas)
  | None => false
  end.

(** The three numbers sort-regions logs when it is done (part_000, 38-40):
    [threeCharKeys.length], [longerKeys.length], [sortedKeys.length]. *)
Definition loggedCounts {V : Type} (regions : JS.Obj V) : nat * nat * nat :=
  (List.length (SortRegions.threeCharKeys regions),
   List.length (SortRegions.longerKeys regions),
   List.length (SortRegions.sortedKeys regions)).

(** Numeric order of two array indices. *)
Definition indexLt (a b : string) : Prop :=
  match JS.arrayIndex a, JS.arrayIndex b with
  | Some n, Some n' => (n < n')%N
  | _, _ => False
  end.

(** A rewriting of the values of an object that keeps keys and positions. *)
Definition mapValues {V : Type} (f : V -> V) (o : JS.Obj V) : JS.Obj V :=
  map (fun kv => (fst kv, f (snd kv))) o.
End Further.

(* ================================================================== *)
(** * Part II.  Properties                                              *)
(* ================================================================== *)

(** ** Sorting strings *)

Module SortFacts.
Import JS.

Lemma le_antisym a b : le a b -> le b a -> a = b.
Proof. apply String.leb_antisym. Qed.

Lemma le_cases a b : le a b <-> a = b \/ String.compare a b = Lt.
Proof.
  unfold le, String.leb. split.
  - destruct (String.compare a b) eqn:E; intros H.
    + left. now apply String.compare_eq_iff.
    + now right.
    + discriminate.
  - intros [-> | ->]; [| reflexivity].
    destruct (String.compare b b) eqn:E; try reflexivity.
    assert (H : String.compare b b = Eq)
      by now apply OrderedTypeEx.String_as_OT.cmp_eq.
    congruence.
Qed.

Lemma le_trans a b c : le a b -> le b c -> le a c.
Proof.
  rewrite !le_cases. intros [-> | Hab] [-> | Hbc]; auto.
  right. apply OrderedTypeEx.String_as_OT.cmp_lt.
  eapply OrderedTypeEx.String_as_OT.lt_trans;
    apply OrderedTypeEx.String_as_OT.cmp_lt; eassumption.
Qed.

Lemma le_total a b : le a b \/ le b a.
Proof. apply String.leb_total. Qed.

Lemma not_le a b : (a <=? b)%string = false -> le b a.
Proof.
  intros H. destruct (le_total a b) as [H' | H']; [unfold le in H'; congruence | exact H'].
Qed.

Lemma insert_perm k l : Permutation (insert k l) (k :: l).
Proof.
  induction l as [| x l IH]; simpl.
  - reflexivity.
  - destruct (k <=? x)%string.
    + reflexivity.
    + rewrite IH. apply perm_swap.
Qed.

Lemma sort_perm l : Permutation (sort l) l.
Proof.
  induction l as [| k l IH]; simpl.
  - constructor.
  - rewrite insert_perm. now constructor.
Qed.

Lemma insert_sorted k l :
  StronglySorted le l -> StronglySorted le (insert k l).
Proof.
  induction 1 as [| x l Hl IH Hx]; simpl.
  - repeat constructor.
  - destruct (k <=? x)%string eqn:E.
    + constructor; [now constructor |].
      constructor; [exact E |].
      eapply Forall_impl; [| exact Hx]. intros y. now apply le_trans.
    + constructor; [exact IH |].
      rewrite (Forall_forall (le x)). intros y Hy.
      apply (Permutation_in _ (insert_perm k l)) in Hy.
      destruct Hy as [<- | Hy].
      * now apply not_le.
      * rewrite Forall_forall in Hx. now apply Hx.
Qed.

Lemma sort_sorted l : StronglySorted le (sort l).
Proof.
  induction l as [| k l IH]; simpl.
  - constructor.
  - now apply insert_sorted.
Qed.

(** A sorted list is determined by its elements. *)
Lemma sorted_perm_eq l : forall l',
  StronglySorted le l -> StronglySorted le l' -> Permutation l l' -> l = l'.
Proof.
  induction l as [| a t IH]; intros l' Hl Hl' P.
  - apply Permutation_nil in P. now subst.
  - destruct l' as [| b t'].
    + apply Permutation_sym, Permutation_nil in P. discriminate.
    + inversion Hl as [| ? ? Ht Ha]; subst.
      inversion Hl' as [| ? ? Ht' Hb]; subst.
      assert (a = b) as ->.
      { assert (Ia : In a (b :: t')) by (eapply Permutation_in; [exact P | now left]).
        assert (Ib : In b (a :: t))
          by (eapply Permutation_in; [apply Permutation_sym; exact P | now left]).
        destruct Ia as [-> | Ia]; [reflexivity |].
        destruct Ib as [-> | Ib]; [reflexivity |].
        rewrite Forall_forall in Ha, Hb.
        apply le_antisym; auto. }
      f_equal. apply IH; auto. eapply Permutation_cons_inv; exact P.
Qed.

Lemma sort_unique l l' :
  StronglySorted le l' -> Permutation l l' -> sort l = l'.
Proof.
  intros S P. apply sorted_perm_eq; auto using sort_sorted.
  now rewrite sort_perm.
Qed.

Lemma filter_sorted (p : string -> bool) l :
  StronglySorted le l -> StronglySorted le (filter p l).
Proof.
  induction 1 as [| x l Hl IH Hx]; simpl.
  - constructor.
  - destruct (p x); [| exact IH].
    constructor; [exact IH |].
    rewrite Forall_forall in *. intros y Hy.
    apply filter_In in Hy. now apply Hx.
Qed.

Lemma filter_perm (p : string -> bool) l l' :
  Permutation l l' -> Permutation (filter p l) (filter p l').
Proof.
  induction 1; simpl.
  - constructor.
  - destruct (p x); auto.
  - destruct (p x), (p y); auto. apply perm_swap.
  - etransitivity; eassumption.
Qed.

Lemma sort_filter (p : string -> bool) l : sort (filter p l) = filter p (sort l).
Proof.
  apply sort_unique.
  - apply filter_sorted, sort_sorted.
  - apply filter_perm, Permutation_sym, sort_perm.
Qed.

Lemma filter_comm (p q : string -> bool) l :
  filter p (filter q l) = filter q (filter p l).
Proof.
  induction l as [| x l IH]; simpl; [reflexivity |].
  destruct (q x) eqn:Q, (p x) eqn:P; simpl; rewrite ?Q, ?P, IH; reflexivity.
Qed.

Lemma sort_In k l : In k (sort l) <-> In k l.
Proof.
  split; apply Permutation_in; [| apply Permutation_sym]; apply sort_perm.
Qed.

End SortFacts.

(** ** Own properties of an object *)

Module ObjFacts.
Import JS.

Section Facts.
Context {V : Type}.
Implicit Types (o : Obj V) (k : string) (v : V).

Lemma get_In o k v : get o k = Some v -> In (k, v) o.
Proof.
  induction o as [| [k' v'] o IH]; simpl; [discriminate |].
  destruct (String.eqb_spec k k') as [-> | _].
  - intros [= ->]. now left.
  - intros H. right. now apply IH.
Qed.

Lemma get_None o k : get o k = None <-> ~ In k (keys o).
Proof.
  induction o as [| [k' v'] o IH]; simpl.
  - tauto.
  - destruct (String.eqb_spec k k') as [-> | N].
    + split; [discriminate | intros H; exfalso; apply H; now left].
    + rewrite IH. split; [intros H [E | I]; [congruence | tauto] | tauto].
Qed.

Lemma get_Some_key o k v : get o k = Some v -> In k (keys o).
Proof.
  intros H. apply get_In in H. unfold keys.
  now apply (in_map fst) in H.
Qed.

Lemma In_keys_get o k : In k (keys o) -> exists v, get o k = Some v.
Proof.
  intros H. destruct (get o k) as [v |] eqn:E; [now exists v |].
  apply get_None in E. contradiction.
Qed.

Lemma In_get o k v : NoDup (keys o) -> In (k, v) o -> get o k = Some v.
Proof.
  induction o as [| [k' v'] o IH]; simpl; [tauto |].
  intros ND [[= -> ->] | I].
  - now rewrite String.eqb_refl.
  - inversion ND as [| ? ? N ND']; subst.
    destruct (String.eqb_spec k k') as [-> | _].
    + exfalso. apply N. now apply (in_map fst) in I.
    + now apply IH.
Qed.

Lemma inOrder_neq k k' : inOrder k k' = true -> k <> k'.
Proof.
  unfold inOrder. intros H. apply andb_true_iff in H as [H _].
  apply negb_true_iff in H. now apply String.eqb_neq.
Qed.

Lemma wfKeys_NoDup (ks : list string) : wfKeys ks = true -> NoDup ks.
Proof.
  induction ks as [| k ks IH]; simpl; intros H.
  - constructor.
  - apply andb_true_iff in H as [H1 H2].
    constructor; [| now apply IH].
    intros I. rewrite forallb_forall in H1.
    now apply (inOrder_neq _ _ (H1 _ I)).
Qed.

Lemma wf_NoDup o : wf o -> NoDup (keys o).
Proof. apply wfKeys_NoDup. Qed.

(** *** Property definition *)

Lemma get_define o k v k' :
  get (define k v o) k' = if k' =? k then Some v else get o k'.
Proof.
  induction o as [| [k0 v0] o IH]; simpl.
  - reflexivity.
  - destruct (String.eqb_spec k k0) as [-> | N]; simpl.
    + now destruct (k' =? k0).
    + destruct (comesBefore k k0); simpl.
      * reflexivity.
      * rewrite IH.
        destruct (String.eqb_spec k' k0) as [-> | _]; [| reflexivity].
        now destruct (String.eqb_spec k0 k) as [-> | _].
Qed.

Lemma keys_define_perm o k v :
  ~ In k (keys o) -> Permutation (keys (define k v o)) (k :: keys o).
Proof.
  induction o as [| [k0 v0] o IH]; simpl; intros N.
  - reflexivity.
  - destruct (String.eqb_spec k k0) as [-> | _]; [tauto |].
    destruct (comesBefore k k0); simpl.
    + reflexivity.
    + rewrite IH by tauto. apply perm_swap.
Qed.

Lemma comesBefore_index k k' : comesBefore k k' = true -> isArrayIndex k = true.
Proof.
  unfold comesBefore, isArrayIndex. now destruct (arrayIndex k).
Qed.

(** A key that is not an array index is appended. *)
Lemma define_append o k v :
  isArrayIndex k = false -> ~ In k (keys o) -> define k v o = o ++ [(k, v)].
Proof.
  intros Hk. induction o as [| [k0 v0] o IH]; simpl; intros N.
  - reflexivity.
  - destruct (String.eqb_spec k k0) as [-> | _]; [tauto |].
    destruct (comesBefore k k0) eqn:E.
    + apply comesBefore_index in E. congruence.
    + now rewrite IH by tauto.
Qed.

Lemma get_set o k v k' :
  k <> proto ->
  get (set k v o) k' = if k' =? k then Some v else get o k'.
Proof.
  intros N. unfold set.
  destruct (String.eqb_spec k proto); [contradiction | apply get_define].
Qed.

(** *** Assignment keeps the own keys in enumeration order *)

Lemma arrayIndex_toString k n : arrayIndex k = Some n -> toString n = k.
Proof.
  unfold arrayIndex. destruct (NilEmpty.uint_of_string k) as [u |]; [| discriminate].
  cbv zeta.
  destruct ((N.of_uint u <? 4294967295)%N && (toString (N.of_uint u) =? k)) eqn:E;
    [| discriminate].
  intros [= <-]. apply andb_true_iff in E as [_ E]. now apply String.eqb_eq.
Qed.

Lemma arrayIndex_inj k k' n : arrayIndex k = Some n -> arrayIndex k' = Some n -> k = k'.
Proof.
  intros H H'. apply arrayIndex_toString in H, H'. congruence.
Qed.

Lemma comesBefore_spec k k' :
  comesBefore k k' = true <->
  match arrayIndex k, arrayIndex k' with
  | Some n, Some n' => (n < n')%N
  | Some _, None => True
  | None, _ => False
  end.
Proof.
  unfold comesBefore. destruct (arrayIndex k), (arrayIndex k');
    rewrite ?N.ltb_lt; intuition discriminate.
Qed.

Lemma inOrder_spec k k' :
  inOrder k k' = true <->
  k <> k' /\
  match arrayIndex k, arrayIndex k' with
  | Some n, Some n' => (n < n')%N
  | None, Some _ => False
  | _, None => True
  end.
Proof.
  unfold inOrder, comesBefore, isArrayIndex.
  rewrite andb_true_iff, negb_true_iff, String.eqb_neq, orb_true_iff.
  destruct (arrayIndex k), (arrayIndex k'); simpl;
    rewrite ?N.ltb_lt; intuition discriminate.
Qed.

Lemma keys_define_In o k v x : In x (keys (define k v o)) -> x = k \/ In x (keys o).
Proof.
  unfold keys. induction o as [| [k0 v0] o IH]; simpl.
  - intuition congruence.
  - destruct (String.eqb_spec k k0) as [-> | _]; simpl; [intuition congruence |].
    destruct (comesBefore k k0); simpl; intuition congruence.
Qed.

Lemma wfKeys_cons k (l : list string) :
  wfKeys (k :: l) = true <->
  (forall x, In x l -> inOrder k x = true) /\ wfKeys l = true.
Proof.
  simpl. now rewrite andb_true_iff, forallb_forall.
Qed.

Lemma define_wf o k v : wf o -> wf (define k v o).
Proof.
  unfold wf. induction o as [| [k0 v0] o IH]; intros W; [reflexivity |].
  change (keys ((k0, v0) :: o)) with (k0 :: keys o) in W.
  apply wfKeys_cons in W as [W1 W2].
  cbn [define]. destruct (String.eqb_spec k k0) as [-> | N].
  - change (wfKeys (k0 :: keys o) = true). now apply wfKeys_cons.
  - destruct (comesBefore k k0) eqn:C.
    + change (wfKeys (k :: k0 :: keys o) = true).
      apply comesBefore_spec in C.
      apply wfKeys_cons. split; [| now apply wfKeys_cons].
      intros x [<- | Hx].
      * apply inOrder_spec. split; [exact N |].
        destruct (arrayIndex k), (arrayIndex k0); tauto.
      * specialize (W1 x Hx).
        apply inOrder_spec in W1 as [_ W1]. apply inOrder_spec.
        destruct (arrayIndex k) as [n |] eqn:Ek; [| contradiction].
        split.
        { intros ->. rewrite Ek in W1.
          destruct (arrayIndex k0); [lia | contradiction]. }
        destruct (arrayIndex k0), (arrayIndex x); try tauto. lia.
    + change (wfKeys (k0 :: keys (define k v o)) = true).
      apply wfKeys_cons. split; [| now apply IH].
      intros x Hx.
      apply keys_define_In in Hx as [-> | Hx]; [| now apply W1].
      apply inOrder_spec. split; [congruence |].
      destruct (arrayIndex k) as [n |] eqn:Ek; [| now destruct (arrayIndex k0)].
      unfold comesBefore in C. rewrite Ek in C.
      destruct (arrayIndex k0) as [n0 |] eqn:Ek0; [| discriminate].
      apply N.ltb_ge in C.
      assert (n0 <> n) by (intros ->; apply N; eapply arrayIndex_inj; eassumption).
      lia.
Qed.

Lemma set_wf o k v : wf o -> wf (set k v o).
Proof.
  unfold set. destruct (k =? proto); [trivial | apply define_wf].
Qed.

(** *** Positions in a list of keys *)






(** *** Mutation in place *)

(** Mutating the object under every key, one key after the other, is a
    map over the properties. *)
Lemma fold_mutate (f : V -> V) o : forall done,
  NoDup (keys done ++ keys o) ->
  fold_left (fun acc k => mutate k f acc) (keys o) (done ++ o)
  = done ++ map (fun kv => (fst kv, f (snd kv))) o.
Proof.
  induction o as [| [k0 v0] o IH]; simpl; intros done ND.
  - reflexivity.
  - assert (E : mutate k0 f (done ++ (k0, v0) :: o) = (done ++ [(k0, f v0)]) ++ o).
    { clear IH. apply NoDup_remove_2 in ND.
      assert (Nd : ~ In k0 (keys done)) by (intros I; apply ND, in_or_app; now left).
      clear ND. induction done as [| [k1 v1] done IHd]; simpl.
      - now rewrite String.eqb_refl.
      - simpl in Nd.
        destruct (String.eqb_spec k0 k1) as [-> | _]; [tauto |].
        now rewrite IHd by tauto. }
    rewrite E, IH.
    + now rewrite <- app_assoc.
    + unfold keys in *. rewrite map_app, <- app_assoc. exact ND.
Qed.
End Facts.
End ObjFacts.

(** ** sort-regions *)

Module SortRegionsFacts.
Import JS SortFacts ObjFacts SortRegions.

Section Facts.
Context {V : Type}.
Implicit Types (regions acc : Obj V) (L : list string).

Lemma threeCharKeys_eq regions :
  threeCharKeys regions = sort (filter isThreeChar (keys regions)).
Proof. unfold threeCharKeys, pushed. now rewrite partition_as_filter. Qed.

Lemma longerKeys_eq regions :
  longerKeys regions = sort (filter (fun key => negb (isThreeChar key)) (keys regions)).
Proof. unfold longerKeys, pushed. now rewrite partition_as_filter. Qed.

Lemma filter_split_perm (p : string -> bool) L :
  Permutation (filter p L ++ filter (fun x => negb (p x)) L) L.
Proof.
  induction L as [| a L IH]; simpl; [constructor |].
  destruct (p a); simpl.
  - now constructor.
  - rewrite <- Permutation_middle. now constructor.
Qed.

Lemma sortedKeys_perm regions : Permutation (sortedKeys regions) (keys regions).
Proof.
  unfold sortedKeys. rewrite threeCharKeys_eq, longerKeys_eq, !sort_perm.
  apply filter_split_perm.
Qed.

Lemma sortedKeys_NoDup regions : NoDup (keys regions) -> NoDup (sortedKeys regions).
Proof.
  intros H. eapply Permutation_NoDup; [apply Permutation_sym, sortedKeys_perm | exact H].
Qed.

Lemma threeCharKeys_length regions :
  Forall (fun key => String.length key = 3) (threeCharKeys regions).
Proof.
  rewrite threeCharKeys_eq, Forall_forall. intros key H.
  apply sort_In, filter_In in H as [_ H]. now apply Nat.eqb_eq.
Qed.

Lemma longerKeys_length regions :
  Forall (fun key => String.length key <> 3) (longerKeys regions).
Proof.
  rewrite longerKeys_eq, Forall_forall. intros key H.
  apply sort_In, filter_In in H as [_ H].
  apply negb_true_iff in H. now apply Nat.eqb_neq.
Qed.

(** *** The object the reduction builds *)

Lemma assign_proto regions acc : assign regions acc proto = acc.
Proof. unfold assign, set. now destruct (get regions proto). Qed.

Lemma fold_assign_notProto regions L : forall acc,
  fold_left (assign regions) L acc = fold_left (assign regions) (filter notProto L) acc.
Proof.
  induction L as [| k L IH]; intros acc; simpl; [reflexivity |].
  unfold notProto at 1. destruct (String.eqb_spec k proto) as [-> | _]; simpl.
  - rewrite assign_proto. apply IH.
  - apply IH.
Qed.

Lemma fold_assign_ext regions regions' L :
  (forall k, In k L -> get regions k = get regions' k) ->
  forall acc, fold_left (assign regions) L acc = fold_left (assign regions') L acc.
Proof.
  induction L as [| k L IH]; intros E acc; simpl; [reflexivity |].
  unfold assign at 2 4. rewrite (E k) by now left.
  apply IH. intros k' I. apply E. now right.
Qed.

Lemma keys_fold_assign regions L : forall acc,
  NoDup (keys acc ++ L) -> incl L (keys regions) -> forallb notProto L = true ->
  Permutation (keys (fold_left (assign regions) L acc)) (keys acc ++ L).
Proof.
  induction L as [| k L IH]; intros acc ND I NP; simpl.
  - now rewrite app_nil_r.
  - simpl in NP. apply andb_true_iff in NP as [Nk NP].
    destruct (In_keys_get regions k) as [v Ev]; [apply I; now left |].
    unfold assign at 2, set. rewrite Ev.
    unfold notProto in Nk. apply negb_true_iff in Nk. rewrite Nk.
    assert (Fresh : ~ In k (keys acc)).
    { apply NoDup_remove_2 in ND. intros H. apply ND, in_or_app. now left. }
    assert (P : Permutation (keys (define k v acc) ++ L) (keys acc ++ k :: L)).
    { rewrite (keys_define_perm acc k v Fresh). simpl. apply Permutation_middle. }
    rewrite IH.
    + exact P.
    + eapply Permutation_NoDup; [apply Permutation_sym; exact P | exact ND].
    + intros x Hx. apply I. now right.
    + exact NP.
Qed.

Lemma get_fold_assign_stable regions L : forall acc k v,
  get regions k = Some v -> get acc k = Some v ->
  get (fold_left (assign regions) L acc) k = Some v.
Proof.
  induction L as [| x L IH]; intros acc k v Hr Ha; simpl; [exact Ha |].
  apply IH; [exact Hr |].
  unfold assign, set. destruct (get regions x) as [vx |] eqn:Ex; [| exact Ha].
  destruct (x =? proto); [exact Ha |].
  rewrite get_define. destruct (String.eqb_spec k x) as [-> | _]; congruence.
Qed.

Lemma get_fold_assign regions L : forall acc k,
  In k L -> k <> proto -> In k (keys regions) ->
  get (fold_left (assign regions) L acc) k = get regions k.
Proof.
  induction L as [| x L IH]; intros acc k I N Ik; simpl; [destruct I |].
  destruct (String.eqb_spec x k) as [-> | Nx].
  - destruct (In_keys_get regions k Ik) as [v Ev]. rewrite Ev.
    apply get_fold_assign_stable; [exact Ev |].
    unfold assign. rewrite Ev, get_set by exact N. now rewrite String.eqb_refl.
  - destruct I as [E | I]; [contradiction |]. now apply IH.
Qed.

Lemma keys_sortedRegions_perm regions :
  NoDup (keys regions) ->
  Permutation (keys (sortedRegions regions)) (filter notProto (keys regions)).
Proof.
  intros ND. unfold sortedRegions. rewrite fold_assign_notProto.
  rewrite keys_fold_assign; simpl.
  - apply filter_perm, sortedKeys_perm.
  - now apply NoDup_filter, sortedKeys_NoDup.
  - intros k Hk. apply filter_In in Hk as [Hk _].
    eapply Permutation_in; [apply sortedKeys_perm | exact Hk].
  - apply forallb_filter.
Qed.

(** The reduction builds an object. *)
Lemma sortedRegions_wf regions : wf (sortedRegions regions).
Proof.
  unfold sortedRegions. generalize (sortedKeys regions). intros L.
  assert (H : forall acc, wf acc -> wf (fold_left (assign regions) L acc)).
  { induction L as [| k L IH]; intros acc W; simpl; [exact W |].
    apply IH. unfold assign. destruct (get regions k); [now apply set_wf | exact W]. }
  now apply H.
Qed.

(** With ordinary keys every assignment appends a property. *)
Lemma fold_assign_ordinary regions L : forall acc,
  NoDup (keys acc ++ L) -> forallb ordinaryKey L = true ->
  fold_left (assign regions) L acc = acc ++ flat_map (pick regions) L.
Proof.
  induction L as [| k L IH]; intros acc ND Ho; simpl.
  - now rewrite app_nil_r.
  - simpl in Ho. apply andb_true_iff in Ho as [Hk Ho].
    unfold ordinaryKey in Hk. apply andb_true_iff in Hk as [Hi Hp].
    apply negb_true_iff in Hi, Hp.
    assert (Fresh : ~ In k (keys acc)).
    { apply NoDup_remove_2 in ND. intros H. apply ND, in_or_app. now left. }
    unfold assign at 2, pick at 1, set.
    destruct (get regions k) as [v |]; simpl.
    + rewrite Hp, define_append by assumption.
      rewrite IH; [now rewrite <- app_assoc | | exact Ho].
      unfold keys in *. rewrite map_app, <- app_assoc. exact ND.
    + apply IH; [| exact Ho]. eapply NoDup_remove_1; exact ND.
Qed.

Lemma pick_keys regions (o : Obj V) :
  (forall k v, In (k, v) o -> get regions k = Some v) ->
  flat_map (pick regions) (keys o) = o.
Proof.
  induction o as [| [k v] o IH]; intros H; simpl; [reflexivity |].
  unfold pick at 1. rewrite (H k v) by now left.
  simpl. f_equal. apply IH. intros k' v' I. apply H. now right.
Qed.

Lemma keys_pick regions L :
  incl L (keys regions) -> keys (flat_map (pick regions) L) = L.
Proof.
  induction L as [| k L IH]; intros I; simpl; [reflexivity |].
  destruct (In_keys_get regions k) as [v Ev]; [apply I; now left |].
  unfold keys in *. rewrite map_app. unfold pick at 1. rewrite Ev. simpl.
  f_equal. apply IH. intros x Hx. apply I. now right.
Qed.

Lemma sortedRegions_ordinary regions :
  NoDup (keys regions) -> forallb ordinaryKey (keys regions) = true ->
  sortedRegions regions = flat_map (pick regions) (sortedKeys regions).
Proof.
  intros ND Ho. unfold sortedRegions.
  rewrite fold_assign_ordinary; [reflexivity | now apply sortedKeys_NoDup |].
  rewrite forallb_forall in *. intros k Hk. apply Ho.
  eapply Permutation_in; [apply sortedKeys_perm | exact Hk].
Qed.

Lemma sortedRegions_ordinary_keys regions :
  NoDup (keys regions) -> forallb ordinaryKey (keys regions) = true ->
  keys (sortedRegions regions) = sortedKeys regions.
Proof.
  intros ND Ho. rewrite sortedRegions_ordinary by assumption.
  apply keys_pick. intros k Hk.
  eapply Permutation_in; [apply sortedKeys_perm | exact Hk].
Qed.

Lemma sortedRegions_ordinary_perm regions :
  NoDup (keys regions) -> forallb ordinaryKey (keys regions) = true ->
  Permutation (sortedRegions regions) regions.
Proof.
  intros ND Ho. rewrite sortedRegions_ordinary by assumption.
  rewrite (Permutation_flat_map (pick regions) (sortedKeys_perm regions)).
  rewrite pick_keys; [reflexivity |]. intros k v. now apply In_get.
Qed.
End Facts.
End SortRegionsFacts.

(** *** Keys that are not array indices keep the order of their creation *)

Module KeyOrder.
Import JS SortFacts ObjFacts SortRegions SortRegionsFacts.

Section Facts.
Context {V : Type}.
Implicit Types (regions acc o : Obj V) (L : list string).

Lemma keys_define_split o k (v : V) :
  ~ In k (keys o) ->
  exists l1 l2, keys o = l1 ++ l2 /\ keys (define k v o) = l1 ++ k :: l2.
Proof.
  induction o as [| [k0 v0] o IH]; simpl; intros N.
  - now exists [], [].
  - destruct (String.eqb_spec k k0) as [-> | _]; [tauto |].
    destruct (comesBefore k k0); simpl.
    + now exists [], (k0 :: keys o).
    + destruct IH as (l1 & l2 & E1 & E2); [tauto |].
      exists (k0 :: l1), l2. simpl. now rewrite E1, E2.
Qed.

Lemma nonIndex_keys_define o k (v : V) :
  ~ In k (keys o) ->
  filter nonIndex (keys (define k v o))
  = filter nonIndex (keys o) ++ filter nonIndex [k].
Proof.
  intros N. simpl. destruct (nonIndex k) eqn:E.
  - unfold nonIndex in E. apply negb_true_iff in E.
    rewrite define_append by assumption.
    unfold keys. rewrite map_app, filter_app. simpl.
    unfold nonIndex at 2. now rewrite E.
  - destruct (keys_define_split o k v N) as (l1 & l2 & E1 & E2).
    rewrite E1, E2, !filter_app. simpl. now rewrite E, app_nil_r.
Qed.

Lemma nonIndex_keys_fold regions L : forall acc,
  NoDup (keys acc ++ L) -> incl L (keys regions) ->
  filter nonIndex (keys (fold_left (assign regions) L acc))
  = filter nonIndex (keys acc) ++ filter nonIndex (filter notProto L).
Proof.
  induction L as [| k L IH]; intros acc ND I; simpl.
  - now rewrite app_nil_r.
  - destruct (In_keys_get regions k) as [v Ev]; [apply I; now left |].
    assert (Fresh : ~ In k (keys acc)).
    { apply NoDup_remove_2 in ND. intros H. apply ND, in_or_app. now left. }
    assert (I' : incl L (keys regions)) by (intros x Hx; apply I; now right).
    unfold assign at 2, set, notProto at 1. rewrite Ev.
    destruct (String.eqb_spec k proto) as [-> | Np]; simpl.
    + apply IH; [eapply NoDup_remove_1; exact ND | exact I'].
    + rewrite IH; [| | exact I'].
      * rewrite nonIndex_keys_define by exact Fresh. simpl.
        destruct (nonIndex k); simpl; now rewrite <- ?app_assoc, ?app_nil_r.
      * eapply Permutation_NoDup; [| exact ND].
        rewrite (keys_define_perm acc k v Fresh). simpl.
        apply Permutation_sym, Permutation_middle.
Qed.
End Facts.
End KeyOrder.

(** *** The claims about sort-regions *)

Module SortRegionsClaims.
Import JS SortFacts ObjFacts SortRegions SortRegionsFacts KeyOrder.

(** C7, as stated, fails in two ways.  On [{"abc": ..., "1000": ...}] the
    reduction creates ["abc"] and then ["1000"], and the object enumerates
    the array index ["1000"] first, so the file lists it before the
    3-character key.  On keys of fewer than 3 characters the second group is
    not made of longer keys: the test is [key.length === 3], and ["eu"] and
    ["x"] are sorted into the second group. *)
Lemma sortedRegions_not_stated_order :
  (wf Samples.indexKeyed
   /\ sortedKeys Samples.indexKeyed = ["abc"; "1000"]
   /\ keys (sortedRegions Samples.indexKeyed) = ["1000"; "abc"]
   /\ statedOrder (keys Samples.indexKeyed) = ["abc"; "1000"])
  /\ (wf Samples.shortKeyed
      /\ keys (sortedRegions Samples.shortKeyed) = ["can"; "usa"; "asia"; "eu"; "x"]
      /\ statedOrder (keys Samples.shortKeyed) = ["can"; "usa"; "asia"]).
Proof. repeat split. Qed.

(** C7 (amended).  For every regions mapping whose keys are ordinary
    property names (no array index, no [__proto__]), the sorting step
    produces a mapping with the same key-value pairs whose keys are the
    3-character keys in alphabetical order followed by all the other keys
    in alphabetical order.  The other keys are the longer ones when no key
    has fewer than 3 characters.  The keys [usa], [california], [can],
    [texas], [gbr] come out as [can], [gbr], [usa], [california],
    [texas]. *)
Theorem sortedRegions_three_char_first (V : Type) (regions : Obj V) :
  wf regions ->
  forallb ordinaryKey (keys regions) = true ->
  Permutation (sortedRegions regions) regions
  /\ keys (sortedRegions regions) = threeCharKeys regions ++ longerKeys regions
  /\ Forall (fun key => String.length key = 3) (threeCharKeys regions)
  /\ StronglySorted le (threeCharKeys regions)
  /\ Forall (fun key => String.length key <> 3) (longerKeys regions)
  /\ StronglySorted le (longerKeys regions)
  /\ (Forall (fun key => 3 <= String.length key) (keys regions) ->
      Forall (fun key => 3 < String.length key) (longerKeys regions))
  /\ (forall usa california can texas gbr : V,
      keys (sortedRegions [("usa", usa); ("california", california);
                           ("can", can); ("texas", texas); ("gbr", gbr)])
      = ["can"; "gbr"; "usa"; "california"; "texas"]).
Proof.
  intros W Ho. apply wf_NoDup in W.
  split; [now apply sortedRegions_ordinary_perm |].
  split; [now apply sortedRegions_ordinary_keys |].
  split; [apply threeCharKeys_length |].
  split; [rewrite threeCharKeys_eq; apply sort_sorted |].
  split; [apply longerKeys_length |].
  split; [rewrite longerKeys_eq; apply sort_sorted |].
  split; [| reflexivity].
  intros Hmin. pose proof (longerKeys_length regions) as Hl.
  rewrite Forall_forall in *. intros key Hk.
  specialize (Hl key Hk).
  assert (In key (keys regions)).
  { rewrite longerKeys_eq in Hk. apply sort_In, filter_In in Hk. tauto. }
  specialize (Hmin key H). lia.
Qed.

Lemma sortedRegions_three_char_first_witness :
  wf Samples.fiveRegions
  /\ forallb ordinaryKey (keys Samples.fiveRegions) = true
  /\ Permutation (sortedRegions Samples.fiveRegions) Samples.fiveRegions
  /\ keys (sortedRegions Samples.fiveRegions)
     = ["can"; "gbr"; "usa"; "california"; "texas"].
Proof.
  split; [reflexivity |]. split; [reflexivity |].
  destruct (sortedRegions_three_char_first _ Samples.fiveRegions)
    as (P & K & _); [reflexivity | reflexivity |].
  split; [exact P | exact K].
Defined.

(** C8.  Sorting is idempotent: sorting the mapping the step has produced
    gives that mapping again, with the same keys in the same order and the
    same values. *)
Theorem sortedRegions_idempotent (V : Type) (regions : Obj V) :
  wf regions ->
  sortedRegions (sortedRegions regions) = sortedRegions regions.
Proof.
  intros W. apply wf_NoDup in W.
  (* the keys of the sorted mapping *)
  pose proof (keys_sortedRegions_perm regions W) as P.
  (* they are sorted into the same sequence, [__proto__] apart *)
  assert (K : sortedKeys (sortedRegions regions)
              = filter notProto (sortedKeys regions)).
  { unfold sortedKeys at 2. rewrite filter_app.
    unfold sortedKeys. f_equal.
    - rewrite !threeCharKeys_eq. apply sort_unique.
      + apply filter_sorted, sort_sorted.
      + rewrite (filter_perm isThreeChar _ _ P).
        rewrite <- sort_filter, sort_perm.
        now rewrite filter_comm.
    - rewrite !longerKeys_eq. apply sort_unique.
      + apply filter_sorted, sort_sorted.
      + rewrite (filter_perm _ _ _ P).
        rewrite <- sort_filter, sort_perm.
        now rewrite filter_comm. }
  unfold sortedRegions at 1. rewrite K.
  unfold sortedRegions at 2. rewrite (fold_assign_notProto regions).
  apply fold_assign_ext. intros k Hk.
  apply filter_In in Hk as [Hk Np].
  unfold notProto in Np. apply negb_true_iff, String.eqb_neq in Np.
  unfold sortedRegions. apply get_fold_assign; auto.
  eapply Permutation_in; [apply sortedKeys_perm | exact Hk].
Qed.

Lemma sortedRegions_idempotent_witness :
  wf Samples.indexKeyed
  /\ sortedRegions (sortedRegions Samples.indexKeyed) = sortedRegions Samples.indexKeyed.
Proof.
  split; [reflexivity |].
  apply (sortedRegions_idempotent _ Samples.indexKeyed). reflexivity.
Defined.






End SortRegionsClaims.

(** ** The high-res stripping loop *)

Module StripHighResClaims.
Import JS ObjFacts Dev StripHighRes.

Lemma get_map_values {V : Type} (f : V -> V) (o : Obj V) k :
  get (map (fun kv => (fst kv, f (snd kv))) o) k = option_map f (get o k).
Proof.
  induction o as [| [k0 v0] o IH]; simpl; [reflexivity |].
  now destruct (k =? k0).
Qed.

(** The loop visits every key once and rewrites the region stored there. *)
Lemma stripRegions_map (regions : Obj RegionDev) :
  NoDup (keys regions) ->
  stripRegions regions = map (fun kv => (fst kv, strip (snd kv))) regions.
Proof.
  intros ND. unfold stripRegions.
  change (fold_left step (keys regions) regions)
    with (fold_left (fun acc k => mutate k strip acc) (keys regions) ([] ++ regions)).
  now rewrite fold_mutate.
Qed.

(** C5, as stated, fails on a region that has no [high-res] area: the
    guard of the loop leaves it as it is, [low-res] and [medium-res]
    included. *)
Lemma strip_keeps_coarse_areas :
  get (regions (stripData StripSamples.world)) "atl" = Some StripSamples.coarse
  /\ option_map medium_res (areas StripSamples.coarse)
     = Some (Some (Samples.area StripSamples.polygon))
  /\ option_map low_res (areas StripSamples.coarse)
     = Some (Some (Samples.area StripSamples.polygon)).
Proof. repeat split. Qed.

(** C5 (amended).  For every region of the input dataset that has a
    [high-res] area, the stripping step retains only that area and drops
    [low-res] and [medium-res]; a region with no [areas] or no [high-res]
    area is written unchanged.  Keys, their order, the other fields of a
    region and [commonTerritories] are kept. *)
Theorem stripData_keeps_high_res (data : WorldDataDev)
    (regionCode : string) (region : RegionDev) :
  wf (regions data) ->
  get (regions data) regionCode = Some region ->
  commonTerritories (stripData data) = commonTerritories data
  /\ keys (regions (stripData data)) = keys (regions data)
  /\ exists region',
       get (regions (stripData data)) regionCode = Some region'
       /\ regionName region' = regionName region
       /\ disputedRegions region' = disputedRegions region
       /\ match areas region with
          | Some a =>
              match high_res a with
              | Some h =>
                  areas region'
                  = Some {| low_res := None; medium_res := None; high_res := Some h |}
              | None => region' = region
              end
          | None => region' = region
          end.
Proof.
  intros W G. apply wf_NoDup in W. simpl.
  rewrite stripRegions_map by exact W.
  split; [reflexivity |].
  split.
  { unfold keys. rewrite map_map. simpl. reflexivity. }
  exists (strip region). rewrite get_map_values, G. simpl.
  split; [reflexivity |].
  unfold strip. destruct (areas region) as [a |]; [| auto].
  destruct (high_res a); simpl; auto.
Qed.

Lemma stripData_keeps_high_res_witness :
  wf (regions StripSamples.world)
  /\ get (regions StripSamples.world) "can" = Some StripSamples.full
  /\ exists region',
       get (regions (stripData StripSamples.world)) "can" = Some region'
       /\ areas region'
          = Some {| low_res := None; medium_res := None;
                    high_res := Some (Samples.area StripSamples.polygon) |}.
Proof.
  split; [reflexivity |]. split; [reflexivity |].
  destruct (stripData_keeps_high_res StripSamples.world "can" StripSamples.full)
    as (_ & _ & region' & G & _ & _ & A); [reflexivity | reflexivity |].
  exists region'. split; [exact G | exact A].
Defined.
End StripHighResClaims.

(** ** convert-wkt-to-svg.ts *)

Module ConvertFacts.
Import JS ObjFacts Convert.

Section Facts.
Context {GeoJSON : Type} (parse : string -> option GeoJSON).

Local Abbreviation convertWKTToSVG := (Convert.convertWKTToSVG GeoJSON parse).
Local Abbreviation convertRegionDev := (Convert.convertRegionDev GeoJSON parse).
Local Abbreviation convertRegions := (Convert.convertRegions GeoJSON parse).

Implicit Types (g : Globals GeoJSON) (wkt code : string).

(** [convertWKTToSVG] reads the generator and leaves it alone. *)
Lemma convertWKTToSVG_globals wkt g : globalsAfter (convertWKTToSVG wkt g) = g.
Proof.
  unfold Convert.convertWKTToSVG, bind, readGlobals, throw, ret, globalsAfter.
  destruct (parse wkt) as [geojson |]; simpl; [| reflexivity].
  destruct (globalPathGenerator g) as [generator |]; simpl; [| reflexivity].
  unfold lift. destruct (generator geojson) as [[svgPath |] | e]; try reflexivity.
  destruct (svgPath =? ""); reflexivity.
Qed.

Lemma convertWKTToSVG_pair wkt g :
  convertWKTToSVG wkt g = (outcome (convertWKTToSVG wkt g), g).
Proof.
  rewrite <- (convertWKTToSVG_globals wkt g) at 3.
  unfold outcome, globalsAfter. now destruct (convertWKTToSVG wkt g).
Qed.

(** [convertWKTToSVG] once the generator is installed. *)
Lemma convertWKTToSVG_installed (generator : GeoPath GeoJSON) wkt :
  outcome (convertWKTToSVG wkt {| globalPathGenerator := Some generator |})
  = match parse wkt with
    | None => Throw (parseFailure wkt)
    | Some geojson =>
        match generator geojson with
        | Throw e => Throw e
        | Normal None => Throw (pathFailure wkt)
        | Normal (Some svgPath) =>
            if svgPath =? "" then Throw (pathFailure wkt) else Normal svgPath
        end
    end.
Proof.
  unfold Convert.convertWKTToSVG, bind, readGlobals, throw, ret, lift, outcome.
  destruct (parse wkt) as [geojson |]; simpl; [| reflexivity].
  destruct (generator geojson) as [[svgPath |] | e]; try reflexivity.
  now destruct (svgPath =? "").
Qed.

(** What [convertRegionDev] returns, and why it throws. *)
Lemma convertRegionDev_run (regionDev : Dev.RegionDev) g :
  globalsAfter (convertRegionDev regionDev g) = g
  /\ match outcome (convertRegionDev regionDev g) with
     | Normal regionProd =>
         Prod.regionName regionProd = Dev.regionName regionDev
         /\ Prod.disputedRegions regionProd = Dev.disputedRegions regionDev
         /\ exists areasDev areaDev svgPath,
              Dev.areas regionDev = Some areasDev
              /\ medium_res areasDev = Some areaDev
              /\ outcome (convertWKTToSVG (areaWKT areaDev) g) = Normal svgPath
              /\ Prod.areas regionProd
                 = {| low_res_prod := None;
                      medium_res_prod := Some {| areaSVG := svgPath |};
                      high_res_prod := None |}
     | Throw e =>
         forall areasDev areaDev,
           Dev.areas regionDev = Some areasDev ->
           medium_res areasDev = Some areaDev ->
           outcome (convertWKTToSVG (areaWKT areaDev) g) = Throw e
     end.
Proof.
  unfold Convert.convertRegionDev, Convert.convertAreasDev, Convert.convertAreaDev.
  destruct (Dev.areas regionDev) as [areasDev |]; [| split; [reflexivity | discriminate]].
  destruct (medium_res areasDev) as [areaDev |] eqn:Medium;
    [| split; [reflexivity | simpl; intros ? ? [= <-]; congruence]].
  unfold bind. rewrite (convertWKTToSVG_pair (areaWKT areaDev) g).
  destruct (outcome (convertWKTToSVG (areaWKT areaDev) g)) as [svgPath | e] eqn:E.
  - unfold ret.
    destruct (Dev.disputedRegions regionDev) as [claims |] eqn:D; simpl;
      (split; [reflexivity |]); repeat split; eauto 10.
  - simpl. split; [reflexivity |].
    intros ? ? [= <-] H. rewrite Medium in H. injection H as <-. exact E.
Qed.

Lemma convertRegionDev_pair (regionDev : Dev.RegionDev) g :
  convertRegionDev regionDev g = (outcome (convertRegionDev regionDev g), g).
Proof.
  destruct (convertRegionDev_run regionDev g) as [E _]. rewrite <- E at 3.
  unfold outcome, globalsAfter. now destruct (convertRegionDev regionDev g).
Qed.

(** The test of the loop is the negation of the stated inclusion test. *)
Lemma skipped_qualifies (worldDataDev : Dev.WorldDataDev) code (regionDev : Dev.RegionDev) :
  get (Dev.regions worldDataDev) code = Some regionDev ->
  skipped worldDataDev code = Normal (negb (qualifies code regionDev)).
Proof.
  intros G. unfold skipped, qualifies.
  rewrite (Nat.leb_antisym 3 (String.length code)).
  destruct (3 <? String.length code)%nat; simpl; [reflexivity |].
  rewrite G. now destruct (Dev.areas regionDev).
Qed.

Lemma qualifies_notProto code (regionDev : Dev.RegionDev) :
  qualifies code regionDev = true -> code <> proto.
Proof.
  unfold qualifies. intros H ->. discriminate H.
Qed.

(** One turn of the loop. *)
Lemma convertRegions_cons (worldDataDev : Dev.WorldDataDev) g code
    (regionDev : Dev.RegionDev) (todo : list (string * Dev.RegionDev))
    (worldDataProd : Prod.WorldDataProd) :
  get (Dev.regions worldDataDev) code = Some regionDev ->
  convertRegions worldDataDev ((code, regionDev) :: todo) worldDataProd g
  = if qualifies code regionDev then
      match outcome (convertRegionDev regionDev g) with
      | Normal regionProd =>
          convertRegions worldDataDev todo (withRegion worldDataProd code regionProd) g
      | Throw e => (Throw e, g)
      end
    else convertRegions worldDataDev todo worldDataProd g.
Proof.
  intros G. simpl. unfold bind, lift.
  rewrite (skipped_qualifies worldDataDev code regionDev G).
  destruct (qualifies code regionDev); simpl; [| reflexivity].
  rewrite (convertRegionDev_pair regionDev g).
  now destruct (outcome (convertRegionDev regionDev g)).
Qed.

(** The loop: the state is left alone; a dataset that is returned holds
    the conversion of every qualifying entry and nothing else new; an
    exception is the one a qualifying entry has raised. *)
Lemma convertRegions_run (worldDataDev : Dev.WorldDataDev) g
    (todo : list (string * Dev.RegionDev)) :
  forall worldDataProd : Prod.WorldDataProd,
  NoDup (keys todo) ->
  (forall code regionDev, In (code, regionDev) todo ->
     get (Dev.regions worldDataDev) code = Some regionDev) ->
  globalsAfter (convertRegions worldDataDev todo worldDataProd g) = g
  /\ match outcome (convertRegions worldDataDev todo worldDataProd g) with
     | Normal result =>
         Prod.width result = Prod.width worldDataProd
         /\ Prod.height result = Prod.height worldDataProd
         /\ Prod.commonTerritories result = Prod.commonTerritories worldDataProd
         /\ (forall code,
               get (Prod.regions result) code
               = match get todo code with
                 | Some regionDev =>
                     if qualifies code regionDev then converted parse g regionDev
                     else get (Prod.regions worldDataProd) code
                 | None => get (Prod.regions worldDataProd) code
                 end)
         /\ (forall code regionDev,
               In (code, regionDev) todo -> qualifies code regionDev = true ->
               exists regionProd,
                 outcome (convertRegionDev regionDev g) = Normal regionProd)
     | Throw e =>
         exists code regionDev,
           In (code, regionDev) todo
           /\ qualifies code regionDev = true
           /\ outcome (convertRegionDev regionDev g) = Throw e
     end.
Proof.
  induction todo as [| [code0 regionDev0] todo IH]; intros worldDataProd ND Own.
  - simpl. repeat split; auto. intros ? ? [].
  - rewrite convertRegions_cons by (apply Own; now left).
    inversion ND as [| ? ? Fresh ND']; subst.
    assert (Own' : forall code regionDev, In (code, regionDev) todo ->
              get (Dev.regions worldDataDev) code = Some regionDev)
      by (intros; apply Own; now right).
    apply get_None in Fresh.
    destruct (qualifies code0 regionDev0) eqn:Q; simpl.
    + destruct (outcome (convertRegionDev regionDev0 g)) as [regionProd | e] eqn:E.
      * specialize (IH (withRegion worldDataProd code0 regionProd) ND' Own').
        destruct IH as [IHg IH]. split; [exact IHg |].
        destruct (outcome (convertRegions worldDataDev todo
                    (withRegion worldDataProd code0 regionProd) g)) as [result | e'].
        -- destruct IH as (Hw & Hh & Hc & Hget & Hall).
           repeat split; auto.
           ++ intros code. rewrite Hget. simpl.
              rewrite get_set by (eapply qualifies_notProto; exact Q).
              destruct (String.eqb_spec code code0) as [-> | _].
              ** rewrite Fresh, Q. unfold converted. now rewrite E.
              ** reflexivity.
           ++ intros code regionDev [[= <- <-] | I] Hq; eauto.
        -- destruct IH as (code & regionDev & I & Hq & Ht).
           exists code, regionDev. auto.
      * simpl. split; [reflexivity |]. exists code0, regionDev0. auto.
    + specialize (IH worldDataProd ND' Own').
      destruct IH as [IHg IH]. split; [exact IHg |].
      destruct (outcome (convertRegions worldDataDev todo worldDataProd g))
        as [result | e'].
      * destruct IH as (Hw & Hh & Hc & Hget & Hall).
        repeat split; auto.
        -- intros code. rewrite Hget.
           destruct (String.eqb_spec code code0) as [-> | _].
           ++ now rewrite Fresh, Q.
           ++ reflexivity.
        -- intros code regionDev [[= <- <-] | I] Hq; [congruence | eauto].
      * destruct IH as (code & regionDev & I & Hq & Ht).
        exists code, regionDev. auto.
Qed.
End Facts.
End ConvertFacts.

(** *** The claims about the converter *)

Module ConvertClaims.
Import JS ObjFacts Convert ConvertFacts.

Section Geometries.
Context {GeoJSON : Type} (parse : string -> option GeoJSON).

Local Abbreviation convertWKTToSVG := (Convert.convertWKTToSVG GeoJSON parse).

Implicit Types (g : Globals GeoJSON) (wkt : string).

(** **** Single geometries *)

Lemma substring_prefix (n : nat) : forall s : string,
  String.length (substring 0 n s) <= n /\ String.prefix (substring 0 n s) s = true.
Proof.
  induction n as [| n IH]; intros [| c s]; simpl; auto with arith.
  destruct (IH s) as [Hl Hp]. split; [lia |].
  destruct (ascii_dec c c); [exact Hp | contradiction].
Qed.

Lemma failures_differ wkt wkt' : parseFailure wkt <> pathFailure wkt'.
Proof. unfold parseFailure, pathFailure. simpl. discriminate. Qed.

(** C4, as stated, fails on a text that is read and on which the path
    generator throws: [POLYGON ((0 0))] is read by [parse], the generator
    throws a [TypeError] on its ring of one point, and [convertWKTToSVG]
    throws neither of its two errors and returns no path. *)
Lemma one_point_ring_neither_fails_nor_returns :
  Toy.parse Toy.onePoint = Some Toy.onePoint
  /\ Toy.geoPath 0 Toy.onePoint = Throw Toy.ringError
  /\ outcome (Toy.convertWKTToSVG Toy.onePoint
                {| globalPathGenerator := Some (Toy.geoPath 0) |})
     = Throw (TypeError "Cannot read properties of undefined (reading '0')")
  /\ Toy.ringError <> parseFailure Toy.onePoint
  /\ Toy.ringError <> pathFailure Toy.onePoint.
Proof.
  split; [reflexivity |]. split; [reflexivity |]. split; [reflexivity |].
  split; discriminate.
Qed.

(** C4 (amended).  With the path generator in place, [convertWKTToSVG]
    throws exactly in three cases: [parse] returns nothing, and the
    exception is the parse failure (the specification's
    [GeometryParseError]), whose message carries the first 100 code units of
    the text; the geometry was read and the generator threw, and the
    exception is the one the generator threw; the geometry was read and the
    generator returned [null] or the empty string, and the exception is the
    path failure ([EmptyPathError]).  It returns a path exactly when the
    geometry was read and the generator returned that path, not empty.  When
    the generator throws on no geometry of the text, the two errors are
    thrown exactly as the claim says. *)
Theorem convertWKTToSVG_outcome (generator : GeoPath GeoJSON) wkt :
  let result :=
    outcome (convertWKTToSVG wkt {| globalPathGenerator := Some generator |}) in
  (forall e,
     result = Throw e <->
     (parse wkt = None /\ e = parseFailure wkt)
     \/ exists geojson,
          parse wkt = Some geojson
          /\ (generator geojson = Throw e
              \/ ((generator geojson = Normal None
                   \/ generator geojson = Normal (Some ""))
                  /\ e = pathFailure wkt)))
  /\ (forall svgPath,
        result = Normal svgPath <->
        exists geojson,
          parse wkt = Some geojson
          /\ generator geojson = Normal (Some svgPath) /\ svgPath <> "")
  /\ ((forall geojson e, parse wkt = Some geojson -> generator geojson <> Throw e) ->
      (result = Throw (parseFailure wkt) <-> parse wkt = None)
      /\ (result = Throw (pathFailure wkt) <->
          exists geojson,
            parse wkt = Some geojson
            /\ (generator geojson = Normal None
                \/ generator geojson = Normal (Some ""))))
  /\ (exists shown,
        parseFailure wkt = Error ("Failed to parse WKT: " ++ shown ++ "...")
        /\ shown = substring 0 100 wkt
        /\ String.length shown <= 100
        /\ String.prefix shown wkt = true).
Proof.
  pose proof (failures_differ wkt wkt) as Diff.
  cbv zeta. rewrite convertWKTToSVG_installed.
  assert (Shown : exists shown,
            parseFailure wkt = Error ("Failed to parse WKT: " ++ shown ++ "...")
            /\ shown = substring 0 100 wkt
            /\ String.length shown <= 100
            /\ String.prefix shown wkt = true).
  { exists (substring 0 100 wkt). destruct (substring_prefix 100 wkt). auto. }
  destruct (parse wkt) as [geojson |] eqn:P.
  - destruct (generator geojson) as [[svgPath |] | e0] eqn:G.
    + destruct (String.eqb_spec svgPath "") as [-> | Nonempty].
      * split.
        { intros e. split.
          - intros [= <-]. right. exists geojson. split; [reflexivity |].
            right. split; [now right | reflexivity].
          - intros [[H _] | (geojson' & [= <-] & [H | [_ ->]])];
              [discriminate | congruence | reflexivity]. }
        split.
        { intros svgPath. split; [discriminate |].
          intros (geojson' & [= <-] & H & N). congruence. }
        split; [| exact Shown].
        intros _. split.
        -- split; [intros [= H]; congruence | discriminate].
        -- split; [intros _; exists geojson; auto | reflexivity].
      * split.
        { intros e. split; [discriminate |].
          intros [[H _] | (geojson' & [= <-] & [H | [[H | H] _]])]; congruence. }
        split.
        { intros svgPath'. split.
          - intros [= <-]. eauto.
          - intros (geojson' & [= <-] & H & _). congruence. }
        split; [| exact Shown].
        intros _. split.
        -- split; discriminate.
        -- split; [discriminate |].
           intros (geojson' & [= <-] & [H | H]); congruence.
    + split.
      { intros e. split.
        - intros [= <-]. right. exists geojson. split; [reflexivity |].
          right. split; [now left | reflexivity].
        - intros [[H _] | (geojson' & [= <-] & [H | [_ ->]])];
            [discriminate | congruence | reflexivity]. }
      split.
      { intros svgPath. split; [discriminate |].
        intros (geojson' & [= <-] & H & _). congruence. }
      split; [| exact Shown].
      intros _. split.
      * split; [intros [= H]; congruence | discriminate].
      * split; [intros _; exists geojson; auto | reflexivity].
    + split.
      { intros e. split.
        - intros [= <-]. right. exists geojson. auto.
        - intros [[H _] | (geojson' & [= <-] & [H | [[H | H] _]])]; congruence. }
      split.
      { intros svgPath. split; [discriminate |].
        intros (geojson' & [= <-] & H & _). congruence. }
      split; [| exact Shown].
      intros Returns. exfalso. exact (Returns geojson e0 eq_refl G).
  - split.
    { intros e. split.
      - intros [= <-]. now left.
      - intros [[_ ->] | (geojson & H & _)]; [reflexivity | discriminate]. }
    split.
    { intros svgPath. split; [discriminate |].
      intros (geojson & H & _). discriminate. }
    split; [| exact Shown].
    intros _. split; [tauto |].
    split; [intros [= H]; congruence |].
    intros (geojson & H & _). discriminate.
Qed.

Lemma convertWKTToSVG_returns (generator : GeoPath GeoJSON) wkt geojson svgPath :
  parse wkt = Some geojson ->
  generator geojson = Normal (Some svgPath) ->
  svgPath <> "" ->
  outcome (convertWKTToSVG wkt {| globalPathGenerator := Some generator |})
  = Normal svgPath.
Proof.
  intros P G N. rewrite convertWKTToSVG_installed, P, G.
  now destruct (String.eqb_spec svgPath "").
Qed.

(** C9.  [convertWKTToSVG] reads the path generator and does not change it:
    a second call with the same text returns what the first call returned,
    and for a text that is read and drawn both calls return the same path
    string. *)
Theorem convertWKTToSVG_deterministic (generator : GeoPath GeoJSON) wkt :
  let g := {| globalPathGenerator := Some generator |} in
  let first := convertWKTToSVG wkt g in
  let second := convertWKTToSVG wkt (globalsAfter first) in
  globalsAfter first = g
  /\ globalsAfter second = g
  /\ outcome second = outcome first
  /\ (forall geojson svgPath,
        parse wkt = Some geojson ->
        generator geojson = Normal (Some svgPath) ->
        svgPath <> "" ->
        outcome first = Normal svgPath /\ outcome second = Normal svgPath).
Proof.
  cbv zeta. rewrite !convertWKTToSVG_globals.
  repeat split; try reflexivity; now apply convertWKTToSVG_returns with geojson.
Qed.

End Geometries.

Section Claims.
Context {GeoJSON : Type} (parse : string -> option GeoJSON).
Context {Projection : Type}.
Context (fitSize : Z * Z -> FeatureCollection GeoJSON -> Completion Projection).
Context (geoPath : Projection -> GeoJSON -> Completion (option string)).

Local Abbreviation initializeGlobalProjection :=
  (Convert.initializeGlobalProjection GeoJSON parse Projection fitSize geoPath).
Local Abbreviation convertWorldData :=
  (Convert.convertWorldData GeoJSON parse Projection fitSize geoPath).
Local Abbreviation convertWKTToSVG := (Convert.convertWKTToSVG GeoJSON parse).
Local Abbreviation convertRegionDev := (Convert.convertRegionDev GeoJSON parse).
Local Abbreviation convertRegions := (Convert.convertRegions GeoJSON parse).

Implicit Types (g : Globals GeoJSON) (wkt code : string).

Local Abbreviation fit := (Convert.fit parse fitSize).
Local Abbreviation fitted := (Convert.fitted geoPath).
Local Abbreviation suppliesHighRes := (Convert.suppliesHighRes parse).

Lemma qualifies_included code (regionDev : Dev.RegionDev) :
  qualifies code regionDev = true <-> included code regionDev.
Proof.
  unfold qualifies, included. rewrite andb_true_iff, Nat.leb_le.
  destruct (Dev.areas regionDev) as [areasDev |].
  - destruct (medium_res areasDev) as [areaDev |] eqn:M; simpl.
    + split; [intros [H _]; split; eauto | tauto].
    + split; [intros [_ H]; discriminate |].
      intros (_ & a & b & [= <-] & H). congruence.
  - split; [intros [_ H]; discriminate |].
    intros (_ & a & b & H & _). discriminate.
Qed.

(** [initializeGlobalProjection] throws what [fitSize] throws and leaves
    the state alone, or installs the generator of the projection. *)
Lemma initializeGlobalProjection_run (worldDataDev : Dev.WorldDataDev) g :
  initializeGlobalProjection worldDataDev g
  = match fit worldDataDev with
    | Normal projection => (Normal tt, fitted projection)
    | Throw e => (Throw e, g)
    end.
Proof.
  unfold Convert.initializeGlobalProjection, Convert.fit, bind, lift, writeGlobals.
  now destruct (fitSize _ _).
Qed.

Lemma convertWorldData_loop (worldDataDev : Dev.WorldDataDev) g :
  convertWorldData worldDataDev g
  = match fit worldDataDev with
    | Normal projection =>
        convertRegions worldDataDev (entries (Dev.regions worldDataDev))
          (emptyProd worldDataDev) (fitted projection)
    | Throw e => (Throw e, g)
    end.
Proof.
  unfold Convert.convertWorldData, bind. rewrite initializeGlobalProjection_run.
  destruct (fit worldDataDev) as [projection | e]; [| reflexivity].
  unfold emptyProd. now destruct (Dev.commonTerritories worldDataDev).
Qed.

Lemma allFeatures_none (worldDataDev : Dev.WorldDataDev) :
  (forall regionDev, In regionDev (values (Dev.regions worldDataDev)) ->
     suppliesHighRes regionDev = false) ->
  allFeatures GeoJSON parse worldDataDev = [].
Proof.
  unfold allFeatures. generalize (values (Dev.regions worldDataDev)).
  intros l. induction l as [| regionDev l IH]; intros H; simpl; [reflexivity |].
  assert (E : collect GeoJSON parse [] regionDev = []).
  { specialize (H regionDev (or_introl eq_refl)).
    unfold suppliesHighRes in H. unfold collect.
    destruct (Dev.areas regionDev) as [areas |]; [| reflexivity].
    destruct (high_res areas) as [highRes |]; [| reflexivity].
    destruct (areaWKT highRes =? ""); simpl in *; [reflexivity |].
    now destruct (parse (areaWKT highRes)). }
  rewrite E. apply IH. intros r Hr. apply H. now right.
Qed.

(** The whole run: it ends where [fitSize] throws, or goes through the
    loop with the generator of the projection. *)
Lemma convertWorldData_run (worldDataDev : Dev.WorldDataDev) g :
  wf (Dev.regions worldDataDev) ->
  match fit worldDataDev with
  | Throw e => convertWorldData worldDataDev g = (Throw e, g)
  | Normal projection =>
      globalsAfter (convertWorldData worldDataDev g) = fitted projection
      /\ match outcome (convertWorldData worldDataDev g) with
         | Normal result =>
             Prod.width result = WIDTH
             /\ Prod.height result = HEIGHT
             /\ Prod.commonTerritories result = Dev.commonTerritories worldDataDev
             /\ (forall code,
                   get (Prod.regions result) code
                   = match get (Dev.regions worldDataDev) code with
                     | Some regionDev =>
                         if qualifies code regionDev
                         then converted parse (fitted projection) regionDev
                         else None
                     | None => None
                     end)
             /\ (forall code regionDev,
                   get (Dev.regions worldDataDev) code = Some regionDev ->
                   qualifies code regionDev = true ->
                   exists regionProd,
                     outcome (convertRegionDev regionDev (fitted projection))
                     = Normal regionProd)
         | Throw e =>
             exists code regionDev,
               get (Dev.regions worldDataDev) code = Some regionDev
               /\ qualifies code regionDev = true
               /\ outcome (convertRegionDev regionDev (fitted projection)) = Throw e
         end
  end.
Proof.
  intros W. apply wf_NoDup in W. rewrite convertWorldData_loop.
  destruct (fit worldDataDev) as [projection | e0]; [| reflexivity].
  destruct (convertRegions_run parse worldDataDev (fitted projection)
              (entries (Dev.regions worldDataDev)) (emptyProd worldDataDev) W)
    as [Hg H].
  { intros code regionDev. now apply In_get. }
  split; [exact Hg |].
  destruct (outcome (convertRegions worldDataDev (entries (Dev.regions worldDataDev))
              (emptyProd worldDataDev) (fitted projection))) as [result | e].
  - destruct H as (Hw & Hh & Hc & Hget & Hall).
    split; [exact Hw |]. split; [exact Hh |]. split; [exact Hc |].
    split.
    + intros code. rewrite Hget. unfold entries.
      destruct (get (Dev.regions worldDataDev) code); reflexivity.
    + intros code regionDev G. apply Hall. now apply get_In.
  - destruct H as (code & regionDev & I & Hq & Ht).
    exists code, regionDev. repeat split; auto. now apply In_get.
Qed.

(** Where the exception of a run comes from: [fitSize], before the loop,
    or the conversion of a region that passes the test of the loop. *)
Lemma convertWorldData_throws (worldDataDev : Dev.WorldDataDev) g (e : Exception) :
  wf (Dev.regions worldDataDev) ->
  outcome (convertWorldData worldDataDev g) = Throw e ->
  fit worldDataDev = Throw e
  \/ exists projection code regionDev,
       fit worldDataDev = Normal projection
       /\ get (Dev.regions worldDataDev) code = Some regionDev
       /\ included code regionDev
       /\ outcome (convertRegionDev regionDev (fitted projection)) = Throw e.
Proof.
  intros W E. pose proof (convertWorldData_run worldDataDev g W) as H.
  destruct (fit worldDataDev) as [projection | e0].
  - right. destruct H as [_ H]. rewrite E in H.
    destruct H as (code & regionDev & G & Q & T).
    exists projection, code, regionDev.
    split; [reflexivity |]. split; [exact G |].
    split; [now apply qualifies_included | exact T].
  - left. rewrite H in E. simpl in E. congruence.
Qed.

(** **** The batch *)


(** C6.  When [convertWorldData] returns a dataset, its [width] is 1600 and
    its [height] 900, its [commonTerritories] is that of the input, present
    or not, and every region it holds has the [regionName] and the
    [disputedRegions], present or not, of the input region under the same
    code; these are all the fields of a region besides [areas].  A run that
    returns no dataset has thrown in [fitSize] or in the conversion of a
    qualifying region. *)
Theorem convertWorldData_passes_through (worldDataDev : Dev.WorldDataDev) g :
  wf (Dev.regions worldDataDev) ->
  match outcome (convertWorldData worldDataDev g) with
  | Normal result =>
      Prod.width result = 1600%Z
      /\ Prod.height result = 900%Z
      /\ Prod.commonTerritories result = Dev.commonTerritories worldDataDev
      /\ forall code regionProd,
           get (Prod.regions result) code = Some regionProd ->
           exists regionDev,
             get (Dev.regions worldDataDev) code = Some regionDev
             /\ Prod.regionName regionProd = Dev.regionName regionDev
             /\ Prod.disputedRegions regionProd = Dev.disputedRegions regionDev
  | Throw e =>
      fit worldDataDev = Throw e
      \/ exists projection code regionDev,
           fit worldDataDev = Normal projection
           /\ get (Dev.regions worldDataDev) code = Some regionDev
           /\ included code regionDev
           /\ outcome (convertRegionDev regionDev (fitted projection)) = Throw e
  end.
Proof.
  intros W. pose proof (convertWorldData_run worldDataDev g W) as H.
  destruct (outcome (convertWorldData worldDataDev g)) as [result | e] eqn:E;
    [| now apply (convertWorldData_throws worldDataDev g)].
  destruct (fit worldDataDev) as [projection | e0];
    [| rewrite H in E; discriminate E].
  destruct H as [_ H].
  destruct H as (Hw & Hh & Hc & Hget & _).
  split; [exact Hw |]. split; [exact Hh |]. split; [exact Hc |].
  intros code regionProd G. rewrite Hget in G.
  destruct (get (Dev.regions worldDataDev) code) as [regionDev |]; [| discriminate].
  destruct (qualifies code regionDev); [| discriminate].
  exists regionDev. split; [reflexivity |].
  unfold converted in G.
  pose proof (convertRegionDev_run parse regionDev (fitted projection)) as [_ R].
  destruct (outcome (convertRegionDev regionDev (fitted projection)));
    [| discriminate].
  injection G as <-. tauto.
Qed.

(** C2 (amended).  If no region of the input dataset supplies a high-res
    geometry, [initializeGlobalProjection] signals no error: it fits the
    projection to an empty feature collection and installs the path
    generator, and [convertWorldData] goes on to convert the regions with
    it.  The function has no error of its own: it could only throw what
    [fitSize] throws on the empty collection, and [d3-geo] returns a
    projection there. *)
Theorem initializeGlobalProjection_empty_extent (worldDataDev : Dev.WorldDataDev) g :
  (forall regionDev, In regionDev (values (Dev.regions worldDataDev)) ->
     suppliesHighRes regionDev = false) ->
  fit worldDataDev = fitSize (WIDTH, HEIGHT) []
  /\ (forall e,
        outcome (initializeGlobalProjection worldDataDev g) = Throw e ->
        fitSize (WIDTH, HEIGHT) [] = Throw e)
  /\ (forall projection,
        fitSize (WIDTH, HEIGHT) [] = Normal projection ->
        let empty := {| globalPathGenerator := Some (geoPath projection) |} in
        outcome (initializeGlobalProjection worldDataDev g) = Normal tt
        /\ globalsAfter (initializeGlobalProjection worldDataDev g) = empty
        /\ convertWorldData worldDataDev g
           = convertRegions worldDataDev (entries (Dev.regions worldDataDev))
               (emptyProd worldDataDev) empty).
Proof.
  intros H.
  assert (F : fit worldDataDev = fitSize (WIDTH, HEIGHT) []).
  { unfold Convert.fit. now rewrite (allFeatures_none worldDataDev H). }
  rewrite convertWorldData_loop, initializeGlobalProjection_run, F.
  split; [reflexivity |]. split.
  - intros e. destruct (fitSize (WIDTH, HEIGHT) []); simpl;
      [discriminate | now intros [= ->]].
  - intros projection ->. cbv zeta. repeat split.
Qed.

(** C3 (amended).  During the batch conversion a geometry parse failure on
    a region that passes the inclusion test is not caught: the conversion of
    that region throws the parse failure, and [convertWorldData] throws and
    returns no dataset.  The exception it throws is the one [fitSize] has
    thrown, or one that the conversion of a qualifying region has thrown;
    it is this parse failure when [fitSize] returns and the other
    qualifying regions convert. *)
Theorem parse_failure_aborts_batch (worldDataDev : Dev.WorldDataDev) g
    code (regionDev : Dev.RegionDev) (areasDev : AreasDev) (areaDev : AreaDev) :
  wf (Dev.regions worldDataDev) ->
  get (Dev.regions worldDataDev) code = Some regionDev ->
  String.length code <= 3 ->
  Dev.areas regionDev = Some areasDev ->
  medium_res areasDev = Some areaDev ->
  parse (areaWKT areaDev) = None ->
  (forall g',
     outcome (convertRegionDev regionDev g') = Throw (parseFailure (areaWKT areaDev)))
  /\ (exists e,
        outcome (convertWorldData worldDataDev g) = Throw e
        /\ (fit worldDataDev = Throw e
            \/ exists projection code' regionDev',
                 fit worldDataDev = Normal projection
                 /\ get (Dev.regions worldDataDev) code' = Some regionDev'
                 /\ included code' regionDev'
                 /\ outcome (convertRegionDev regionDev' (fitted projection))
                    = Throw e))
  /\ (forall projection,
        fit worldDataDev = Normal projection ->
        (forall code' regionDev',
           get (Dev.regions worldDataDev) code' = Some regionDev' ->
           code' <> code ->
           included code' regionDev' ->
           exists regionProd,
             outcome (convertRegionDev regionDev' (fitted projection))
             = Normal regionProd) ->
        outcome (convertWorldData worldDataDev g)
        = Throw (parseFailure (areaWKT areaDev))).
Proof.
  intros W G Hlen Ha Hm Hp.
  assert (Q : qualifies code regionDev = true).
  { apply qualifies_included. split; eauto. }
  assert (T : forall g', outcome (convertRegionDev regionDev g')
                         = Throw (parseFailure (areaWKT areaDev))).
  { intros g'.
    unfold Convert.convertRegionDev, Convert.convertAreasDev, Convert.convertAreaDev,
      Convert.convertWKTToSVG, bind, throw, outcome.
    now rewrite Ha, Hm, Hp. }
  split; [exact T |].
  pose proof (convertWorldData_run worldDataDev g W) as H.
  destruct (outcome (convertWorldData worldDataDev g)) as [result | e] eqn:E.
  - exfalso. destruct (fit worldDataDev) as [projection | e0];
      [| rewrite H in E; discriminate E].
    destruct H as [_ H]. destruct H as (_ & _ & _ & _ & Hall).
    destruct (Hall code regionDev G Q) as [regionProd E']. rewrite T in E'.
    discriminate E'.
  - split.
    + exists e. split; [reflexivity |].
      now apply (convertWorldData_throws worldDataDev g).
    + intros projection F Others. rewrite F in H. destruct H as [_ H].
      destruct H as (code' & regionDev' & G' & Q' & T').
      destruct (String.eqb_spec code' code) as [-> | N].
      * rewrite G in G'. injection G' as <-. rewrite T in T'. now injection T' as <-.
      * destruct (Others code' regionDev' G' N) as [regionProd E'];
          [now apply qualifies_included | congruence].
Qed.

End Claims.

(** **** The claims on sample data *)

Lemma convertWKTToSVG_outcome_witness :
  outcome (Toy.convertWKTToSVG "POINT"
             {| globalPathGenerator := Some (Toy.geoPath 0) |})
  = Throw (Error "Failed to parse WKT: POINT...")
  /\ outcome (Toy.convertWKTToSVG "POLYGON EMPTY"
                {| globalPathGenerator := Some (Toy.geoPath 0) |})
     = Throw (Error "Failed to generate SVG path for WKT: POLYGON EMPTY...")
  /\ outcome (Toy.convertWKTToSVG Toy.onePoint
                {| globalPathGenerator := Some (Toy.geoPath 0) |})
     = Throw Toy.ringError
  /\ outcome (Toy.convertWKTToSVG StripSamples.polygon
                {| globalPathGenerator := Some (Toy.geoPath 0) |})
     = Normal "M0,0L10,0L10,10L0,10Z".
Proof.
  split; [| split; [| split]].
  - destruct (convertWKTToSVG_outcome Toy.parse (Toy.geoPath 0) "POINT") as (T & _).
    apply T. left. split; reflexivity.
  - destruct (convertWKTToSVG_outcome Toy.parse (Toy.geoPath 0) "POLYGON EMPTY")
      as (T & _).
    apply T. right. exists "POLYGON EMPTY". split; [reflexivity |].
    right. split; [now left | reflexivity].
  - destruct (convertWKTToSVG_outcome Toy.parse (Toy.geoPath 0) Toy.onePoint)
      as (T & _).
    apply T. right. exists Toy.onePoint. split; [reflexivity | now left].
  - destruct (convertWKTToSVG_outcome Toy.parse (Toy.geoPath 0) StripSamples.polygon)
      as (_ & R & _).
    apply R. exists StripSamples.polygon. repeat split. discriminate.
Defined.

Lemma convertWKTToSVG_deterministic_witness :
  outcome (Toy.convertWKTToSVG StripSamples.polygon
             (globalsAfter (Toy.convertWKTToSVG StripSamples.polygon
                {| globalPathGenerator := Some (Toy.geoPath 0) |})))
  = outcome (Toy.convertWKTToSVG StripSamples.polygon
               {| globalPathGenerator := Some (Toy.geoPath 0) |}).
Proof.
  apply (convertWKTToSVG_deterministic Toy.parse (Toy.geoPath 0) StripSamples.polygon).
Defined.


Lemma convertWorldData_passes_through_witness :
  wf (Dev.regions ConvertSamples.twoRegions)
  /\ exists result,
       outcome (Toy.convertWorldData ConvertSamples.twoRegions (uninitialized _))
       = Normal result
       /\ Prod.width result = 1600%Z
       /\ Prod.height result = 900%Z
       /\ Prod.commonTerritories result = Some [("kosovo", "xkx")]
       /\ option_map Prod.disputedRegions (get (Prod.regions result) "can")
          = Some (Some [ConvertSamples.claim]).
Proof.
  split; [reflexivity |].
  pose proof (convertWorldData_passes_through Toy.parse Toy.fitSize Toy.geoPath
                ConvertSamples.twoRegions (uninitialized _) eq_refl) as H.
  unfold Toy.convertWorldData.
  destruct (outcome (Convert.convertWorldData Toy.GeoJSON Toy.parse Toy.Projection
                       Toy.fitSize Toy.geoPath ConvertSamples.twoRegions
                       (uninitialized _))) as [result | e] eqn:E.
  - exists result. destruct H as (Hw & Hh & Hc & _).
    split; [reflexivity |]. split; [exact Hw |]. split; [exact Hh |].
    split; [exact Hc |].
    vm_compute in E. now injection E as <-.
  - vm_compute in E. discriminate E.
Defined.

(** C2, as stated, fails on a dataset in which no region has a [high-res]
    area: [initializeGlobalProjection] returns, and the run converts the
    region and returns a dataset. *)
Lemma projection_without_high_res_returns :
  forallb (fun regionDev => negb (Convert.suppliesHighRes Toy.parse regionDev))
    (values (Dev.regions ConvertSamples.noHighRes)) = true
  /\ outcome (Toy.initializeGlobalProjection ConvertSamples.noHighRes (uninitialized _))
     = Normal tt
  /\ exists result,
       outcome (Toy.convertWorldData ConvertSamples.noHighRes (uninitialized _))
       = Normal result
       /\ keys (Prod.regions result) = ["atl"].
Proof.
  split; [reflexivity |]. split; [reflexivity |].
  eexists. split; [vm_compute; reflexivity | reflexivity].
Qed.

Lemma initializeGlobalProjection_empty_extent_witness :
  (forall regionDev,
     In regionDev (values (Dev.regions ConvertSamples.noHighRes)) ->
     Convert.suppliesHighRes Toy.parse regionDev = false)
  /\ Toy.fitSize (WIDTH, HEIGHT) [] = Normal 0
  /\ outcome (Toy.initializeGlobalProjection ConvertSamples.noHighRes (uninitialized _))
     = Normal tt
  /\ globalsAfter (Toy.initializeGlobalProjection ConvertSamples.noHighRes
                     (uninitialized _))
     = {| globalPathGenerator := Some (Toy.geoPath 0) |}.
Proof.
  assert (H : forall regionDev,
            In regionDev (values (Dev.regions ConvertSamples.noHighRes)) ->
            Convert.suppliesHighRes Toy.parse regionDev = false).
  { simpl. intros regionDev [<- | []]. reflexivity. }
  split; [exact H |]. split; [reflexivity |].
  destruct (initializeGlobalProjection_empty_extent Toy.parse Toy.fitSize Toy.geoPath
              ConvertSamples.noHighRes (uninitialized _) H) as (_ & _ & R).
  destruct (R 0 eq_refl) as (O & G & _).
  split; [exact O | exact G].
Defined.

(** C3, as stated, fails on a dataset whose second region has a text that
    cannot be read: the run ends with the parse failure of that region and
    returns no dataset, although the first and the third region convert. *)
Lemma garbled_region_aborts_batch :
  outcome (Toy.convertWorldData ConvertSamples.oneGarbled (uninitialized _))
  = Throw (Error "Failed to parse WKT: POLYGUN ((0 0, 1 1))...")
  /\ Convert.fit Toy.parse Toy.fitSize ConvertSamples.oneGarbled = Normal 2
  /\ converted Toy.parse (Convert.fitted Toy.geoPath 2) ConvertSamples.canada
     <> None
  /\ converted Toy.parse (Convert.fitted Toy.geoPath 2) StripSamples.full
     <> None.
Proof.
  split; [reflexivity |]. split; [reflexivity |]. split; vm_compute; discriminate.
Qed.

Lemma parse_failure_aborts_batch_witness :
  wf (Dev.regions ConvertSamples.oneGarbled)
  /\ get (Dev.regions ConvertSamples.oneGarbled) "grb" = Some ConvertSamples.garbled
  /\ Toy.parse "POLYGUN ((0 0, 1 1))" = None
  /\ exists e,
       outcome (Toy.convertWorldData ConvertSamples.oneGarbled (uninitialized _))
       = Throw e.
Proof.
  split; [reflexivity |]. split; [reflexivity |]. split; [reflexivity |].
  destruct (parse_failure_aborts_batch Toy.parse Toy.fitSize Toy.geoPath
              ConvertSamples.oneGarbled (uninitialized _) "grb" ConvertSamples.garbled
              {| low_res := None;
                 medium_res := Some (Samples.area "POLYGUN ((0 0, 1 1))");
                 high_res := None |}
              (Samples.area "POLYGUN ((0 0, 1 1))"))
    as (_ & (e & E & _) & _); try reflexivity.
  exists e. exact E.
Defined.
End ConvertClaims.


(* ================================================================== *)
(** * Part III.  Further properties of the scripts                     *)
(* ================================================================== *)

(** ** Objects: a key that comes last is appended *)

Module ObjMore.
Import JS ObjFacts.

Section Facts.
Context {V : Type}.
Implicit Types (o : Obj V) (k : string) (v : V).

Lemma define_last o k v :
  (forall x, In x (keys o) -> inOrder x k = true) ->
  define k v o = o ++ [(k, v)].
Proof.
  induction o as [| [k0 v0] o IH]; intros H; [reflexivity |].
  cbn [define].
  assert (H0 : inOrder k0 k = true) by (apply H; simpl; auto).
  apply inOrder_spec in H0 as [N H0].
  destruct (String.eqb_spec k k0) as [E | _]; [symmetry in E; contradiction |].
  destruct (comesBefore k k0) eqn:C.
  - apply comesBefore_spec in C.
    destruct (arrayIndex k), (arrayIndex k0); try contradiction. lia.
  - simpl. f_equal. apply IH. intros x Hx. apply H. simpl. auto.
Qed.

Lemma keys_app o o' : keys (o ++ o') = keys o ++ keys o'.
Proof. unfold keys. apply map_app. Qed.

Lemma wfKeys_filter (p : string * V -> bool) o :
  wf o -> wf (filter p o).
Proof.
  unfold wf. induction o as [| [k0 v0] o IH]; intros W; [reflexivity |].
  change (keys ((k0, v0) :: o)) with (k0 :: keys o) in W.
  apply wfKeys_cons in W as [W1 W2].
  simpl. destruct (p (k0, v0)); [| now apply IH].
  change (wfKeys (k0 :: keys (filter p o)) = true).
  apply wfKeys_cons. split; [| now apply IH].
  intros x Hx. apply W1. unfold keys in *.
  apply in_map_iff in Hx as (kv & <- & Hkv). apply filter_In in Hkv as [Hkv _].
  now apply in_map.
Qed.
End Facts.
End ObjMore.

(** ** convert-wkt-to-svg.ts: what is emitted, in which order, and which
       exception ends a run *)

Module ConvertMore.
Import JS ObjFacts ObjMore Convert ConvertFacts Further.

Lemma qualifies_iff_included (code : string) (regionDev : Dev.RegionDev) :
  qualifies code regionDev = true <-> included code regionDev.
Proof.
  unfold qualifies, included. rewrite andb_true_iff, Nat.leb_le.
  destruct (Dev.areas regionDev) as [areasDev |].
  - destruct (medium_res areasDev) as [areaDev |] eqn:M; simpl.
    + split; [intros [H _]; split; eauto | tauto].
    + split; [intros [_ H]; discriminate |].
      intros (_ & a & b & [= <-] & H). congruence.
  - split; [intros [_ H]; discriminate |].
    intros (_ & a & b & H & _). discriminate.
Qed.

Section Geometries.
Context {GeoJSON : Type} (parse : string -> option GeoJSON).

Local Abbreviation convertWKTToSVG := (Convert.convertWKTToSVG GeoJSON parse).
Local Abbreviation convertRegionDev := (Convert.convertRegionDev GeoJSON parse).
Local Abbreviation convertRegions := (Convert.convertRegions GeoJSON parse).

Implicit Types (g : Globals GeoJSON) (wkt : string).

(** [convertRegionDev] as a function of the medium-res text. *)
Lemma convertRegionDev_outcome (regionDev : Dev.RegionDev) g :
  outcome (convertRegionDev regionDev g)
  = match Dev.areas regionDev with
    | None => Throw (TypeError "Cannot read properties of undefined (reading 'medium-res')")
    | Some areasDev =>
        match medium_res areasDev with
        | None => Throw (TypeError "Cannot read properties of undefined (reading 'areaWKT')")
        | Some areaDev =>
            match outcome (convertWKTToSVG (areaWKT areaDev) g) with
            | Normal svgPath =>
                Normal {| Prod.regionName := Dev.regionName regionDev;
                          Prod.areas :=
                            {| low_res_prod := None;
                               medium_res_prod := Some {| areaSVG := svgPath |};
                               high_res_prod := None |};
                          Prod.disputedRegions := Dev.disputedRegions regionDev |}
            | Throw e => Throw e
            end
        end
    end.
Proof.
  unfold Convert.convertRegionDev, Convert.convertAreasDev, Convert.convertAreaDev.
  destruct (Dev.areas regionDev) as [areasDev |]; [| reflexivity].
  destruct (medium_res areasDev) as [areaDev |]; [| reflexivity].
  unfold bind. rewrite (convertWKTToSVG_pair parse (areaWKT areaDev) g).
  destruct (outcome (convertWKTToSVG (areaWKT areaDev) g)) as [svgPath | e];
    [| reflexivity].
  unfold ret. now destruct (Dev.disputedRegions regionDev).
Qed.

(** The conversion loop reads the generator and never writes it. *)
Lemma convertRegions_frame (worldDataDev : Dev.WorldDataDev)
    (todo : list (string * Dev.RegionDev)) :
  forall (worldDataProd : Prod.WorldDataProd) g,
  globalsAfter (convertRegions worldDataDev todo worldDataProd g) = g.
Proof.
  induction todo as [| [code regionDev] todo IH]; intros worldDataProd g;
    [reflexivity |].
  simpl. unfold bind, lift.
  destruct (skipped worldDataDev code) as [[|] | e]; [apply IH | | reflexivity].
  rewrite (convertRegionDev_pair parse regionDev g).
  destruct (outcome (convertRegionDev regionDev g)); [apply IH | reflexivity].
Qed.

(** X5.  Outside the guard of the loop, with the generator installed,
    [convertRegionDev] ends in a [TypeError] in three cases and no other:
    the region has no [areas]; its areas have no [medium-res] entry; the
    medium-res text is read and the path generator itself throws a
    [TypeError] on the geometry.  A text that cannot be read, and a path
    that is empty, are never reported as a [TypeError]. *)
Theorem convertRegionDev_TypeError (generator : GeoPath GeoJSON)
    (regionDev : Dev.RegionDev) (message : string) :
  outcome (convertRegionDev regionDev {| globalPathGenerator := Some generator |})
  = Throw (TypeError message)
  <-> ((Dev.areas regionDev = None
        /\ message = "Cannot read properties of undefined (reading 'medium-res')")
       \/ (exists areasDev,
             Dev.areas regionDev = Some areasDev
             /\ medium_res areasDev = None
             /\ message = "Cannot read properties of undefined (reading 'areaWKT')")
       \/ (exists areasDev areaDev geojson,
             Dev.areas regionDev = Some areasDev
             /\ medium_res areasDev = Some areaDev
             /\ parse (areaWKT areaDev) = Some geojson
             /\ generator geojson = Throw (TypeError message))).
Proof.
  rewrite convertRegionDev_outcome.
  destruct (Dev.areas regionDev) as [areasDev |].
  - destruct (medium_res areasDev) as [areaDev |] eqn:M.
    + rewrite convertWKTToSVG_installed.
      destruct (parse (areaWKT areaDev)) as [geojson |] eqn:P.
      * destruct (generator geojson) as [[svgPath |] | e] eqn:G.
        -- split.
           ++ destruct (svgPath =? ""); discriminate.
           ++ intros [[H _] | [(a & [= <-] & H & _) | (a & b & c & [= <-] & H & H' & H'')]];
                congruence.
        -- split; [discriminate |].
           intros [[H _] | [(a & [= <-] & H & _) | (a & b & c & [= <-] & H & H' & H'')]];
             congruence.
        -- split.
           ++ intros [= ->]. right. right. exists areasDev, areaDev, geojson. auto.
           ++ intros [[H _] | [(a & [= <-] & H & _) | (a & b & c & [= <-] & H & H' & H'')]];
                congruence.
      * split; [discriminate |].
        intros [[H _] | [(a & [= <-] & H & _) | (a & b & c & [= <-] & H & H' & H'')]];
          congruence.
    + split.
      * intros [= <-]. right. left. exists areasDev. auto.
      * intros [[H _] | [(a & [= <-] & H & ->) | (a & b & c & [= <-] & H & _)]];
          [discriminate | reflexivity | congruence].
  - split.
    + intros [= <-]. left. auto.
    + intros [[_ ->] | [(a & H & _) | (a & b & c & H & _)]];
        [reflexivity | discriminate | discriminate].
Qed.

(** X6.  Before [initializeGlobalProjection] has run no region is
    converted: [convertRegionDev] throws whatever the region is, and for a
    medium-res text that can be read the exception is the [TypeError] of
    calling [undefined]. *)
Theorem convertRegionDev_uninitialized (regionDev : Dev.RegionDev) :
  (exists e, outcome (convertRegionDev regionDev (uninitialized GeoJSON)) = Throw e)
  /\ (forall areasDev areaDev geojson,
        Dev.areas regionDev = Some areasDev ->
        medium_res areasDev = Some areaDev ->
        parse (areaWKT areaDev) = Some geojson ->
        outcome (convertRegionDev regionDev (uninitialized GeoJSON)) = Throw notAFunction).
Proof.
  rewrite convertRegionDev_outcome.
  assert (U : forall wkt,
            outcome (convertWKTToSVG wkt (uninitialized GeoJSON))
            = match parse wkt with
              | None => Throw (parseFailure wkt)
              | Some _ => Throw notAFunction
              end).
  { intros wkt.
    unfold Convert.convertWKTToSVG, bind, readGlobals, throw, ret, outcome.
    now destruct (parse wkt). }
  split.
  - destruct (Dev.areas regionDev) as [areasDev |]; [| eauto].
    destruct (medium_res areasDev) as [areaDev |]; [| eauto].
    rewrite U. destruct (parse (areaWKT areaDev)); eauto.
  - intros areasDev areaDev geojson -> -> P. now rewrite U, P.
Qed.
End Geometries.

Section Batch.
Context {GeoJSON : Type} (parse : string -> option GeoJSON).
Context {Projection : Type}.
Context (fitSize : Z * Z -> FeatureCollection GeoJSON -> Completion Projection).
Context (geoPath : Projection -> GeoJSON -> Completion (option string)).

Local Abbreviation convertWorldData :=
  (Convert.convertWorldData GeoJSON parse Projection fitSize geoPath).
Local Abbreviation convertWKTToSVG := (Convert.convertWKTToSVG GeoJSON parse).
Local Abbreviation convertRegionDev := (Convert.convertRegionDev GeoJSON parse).
Local Abbreviation convertRegions := (Convert.convertRegions GeoJSON parse).
Local Abbreviation fit := (Convert.fit parse fitSize).
Local Abbreviation fitted := (Convert.fitted geoPath).

Implicit Types (g : Globals GeoJSON) (code : string).

(** The loop appends: the regions it returns are those it started with,
    followed by what it emits for the entries in turn; an exception comes
    from the first entry whose conversion throws. *)
Lemma convertRegions_closed (worldDataDev : Dev.WorldDataDev) g
    (todo : list (string * Dev.RegionDev)) :
  forall worldDataProd : Prod.WorldDataProd,
  wfKeys (keys todo) = true ->
  (forall x c, In x (keys (Prod.regions worldDataProd)) -> In c (keys todo) ->
     inOrder x c = true) ->
  (forall code regionDev, In (code, regionDev) todo ->
     get (Dev.regions worldDataDev) code = Some regionDev) ->
  match outcome (convertRegions worldDataDev todo worldDataProd g) with
  | Normal result =>
      Prod.regions result
      = Prod.regions worldDataProd ++ flat_map (emitted parse g) todo
  | Throw e =>
      exists before code regionDev after,
        todo = before ++ (code, regionDev) :: after
        /\ (forall code' regionDev',
              In (code', regionDev') before -> qualifies code' regionDev' = true ->
              exists regionProd,
                outcome (convertRegionDev regionDev' g) = Normal regionProd)
        /\ qualifies code regionDev = true
        /\ outcome (convertRegionDev regionDev g) = Throw e
  end.
Proof.
  induction todo as [| [code0 regionDev0] todo IH]; intros worldDataProd W Ord Own.
  - simpl. now rewrite app_nil_r.
  - rewrite convertRegions_cons by (apply Own; now left).
    change (keys ((code0, regionDev0) :: todo)) with (code0 :: keys todo) in W, Ord.
    apply wfKeys_cons in W as [W1 W2].
    assert (Own' : forall code regionDev, In (code, regionDev) todo ->
              get (Dev.regions worldDataDev) code = Some regionDev)
      by (intros; apply Own; now right).
    destruct (qualifies code0 regionDev0) eqn:Q.
    + destruct (outcome (convertRegionDev regionDev0 g)) as [regionProd | e] eqn:E.
      * assert (A : Prod.regions (withRegion worldDataProd code0 regionProd)
                    = Prod.regions worldDataProd ++ [(code0, regionProd)]).
        { simpl. unfold set.
          destruct (String.eqb_spec code0 proto) as [P | _];
            [now apply qualifies_notProto in Q |].
          apply define_last. intros x Hx. apply Ord; [exact Hx | now left]. }
        specialize (IH (withRegion worldDataProd code0 regionProd) W2).
        rewrite A in IH.
        assert (Ord' : forall x c,
                  In x (keys (Prod.regions worldDataProd ++ [(code0, regionProd)])) ->
                  In c (keys todo) -> inOrder x c = true).
        { intros x c Hx Hc. rewrite keys_app in Hx.
          apply in_app_or in Hx as [Hx | [<- | []]].
          - apply Ord; [exact Hx | now right].
          - now apply W1. }
        specialize (IH Ord' Own').
        destruct (outcome (convertRegions worldDataDev todo
                    (withRegion worldDataProd code0 regionProd) g)) as [result | e'].
        -- rewrite IH, <- app_assoc. f_equal. simpl. f_equal.
           unfold emitted, survives, converted. simpl. now rewrite Q, E.
        -- destruct IH as (before & code & regionDev & after & -> & Hb & Hq & Ht).
           exists ((code0, regionDev0) :: before), code, regionDev, after.
           split; [reflexivity |]. split; [| auto].
           intros code' regionDev' [[= <- <-] | I] Hq'; eauto.
      * exists [], code0, regionDev0, todo. split; [reflexivity |].
        split; [intros ? ? [] | auto].
    + assert (Ord' : forall x c, In x (keys (Prod.regions worldDataProd)) ->
                In c (keys todo) -> inOrder x c = true)
        by (intros x c Hx Hc; apply Ord; [exact Hx | now right]).
      specialize (IH worldDataProd W2 Ord' Own').
      destruct (outcome (convertRegions worldDataDev todo worldDataProd g))
        as [result | e'].
      * rewrite IH. simpl. unfold emitted at 2, survives. simpl. now rewrite Q.
      * destruct IH as (before & code & regionDev & after & -> & Hb & Hq & Ht).
        exists ((code0, regionDev0) :: before), code, regionDev, after.
        split; [reflexivity |]. split; [| auto].
        intros code' regionDev' [[= <- <-] | I] Hq'; [congruence | eauto].
Qed.

Lemma convertWorldData_closed (worldDataDev : Dev.WorldDataDev) g
    (projection : Projection) :
  wf (Dev.regions worldDataDev) ->
  fit worldDataDev = Normal projection ->
  match outcome (convertWorldData worldDataDev g) with
  | Normal result =>
      Prod.regions result
      = flat_map (emitted parse (fitted projection)) (Dev.regions worldDataDev)
  | Throw e =>
      exists before code regionDev after,
        Dev.regions worldDataDev = before ++ (code, regionDev) :: after
        /\ (forall code' regionDev',
              In (code', regionDev') before -> qualifies code' regionDev' = true ->
              exists regionProd,
                outcome (convertRegionDev regionDev' (fitted projection))
                = Normal regionProd)
        /\ qualifies code regionDev = true
        /\ outcome (convertRegionDev regionDev (fitted projection)) = Throw e
  end.
Proof.
  intros W F. rewrite (ConvertClaims.convertWorldData_loop parse fitSize geoPath), F.
  apply (convertRegions_closed worldDataDev (fitted projection)
           (entries (Dev.regions worldDataDev)) (emptyProd worldDataDev) W).
  - intros x c [].
  - intros code regionDev. apply In_get. now apply wf_NoDup.
Qed.

(** A run that returns has fitted the projection. *)
Lemma convertWorldData_returns (worldDataDev : Dev.WorldDataDev) g
    (result : Prod.WorldDataProd) :
  outcome (convertWorldData worldDataDev g) = Normal result ->
  exists projection, fit worldDataDev = Normal projection.
Proof.
  rewrite (ConvertClaims.convertWorldData_loop parse fitSize geoPath).
  destruct (fit worldDataDev) as [projection | e]; [eauto | discriminate].
Qed.

Lemma keys_emitted g (l : list (string * Dev.RegionDev)) :
  (forall code regionDev, In (code, regionDev) l -> qualifies code regionDev = true ->
     exists regionProd, outcome (convertRegionDev regionDev g) = Normal regionProd) ->
  keys (flat_map (emitted parse g) l) = keys (filter survives l).
Proof.
  induction l as [| [code regionDev] l IH]; intros H; [reflexivity |].
  simpl. rewrite keys_app, IH by (intros; eapply H; eauto; now right).
  unfold emitted, survives. simpl.
  destruct (qualifies code regionDev) eqn:Q; [| reflexivity].
  destruct (H code regionDev (or_introl eq_refl) Q) as [regionProd E].
  unfold converted. now rewrite E.
Qed.

Lemma convertWorldData_keys (worldDataDev : Dev.WorldDataDev) g
    (result : Prod.WorldDataProd) :
  wf (Dev.regions worldDataDev) ->
  outcome (convertWorldData worldDataDev g) = Normal result ->
  keys (Prod.regions result) = keys (filter survives (Dev.regions worldDataDev)).
Proof.
  intros W E.
  destruct (convertWorldData_returns worldDataDev g result E) as [projection F].
  pose proof (convertWorldData_closed worldDataDev g projection W F) as C.
  pose proof (ConvertClaims.convertWorldData_run parse fitSize geoPath worldDataDev g W)
    as R.
  rewrite F in R. destruct R as [_ R].
  rewrite E in C, R. destruct R as (_ & _ & _ & _ & Hall).
  rewrite C. apply keys_emitted. intros code regionDev I.
  apply Hall. apply In_get; [now apply wf_NoDup | exact I].
Qed.

(** X1.  The dataset [convertWorldData] returns lists the surviving regions
    in the order of the input: its region keys are the keys of the input
    entries that pass the test of the loop, in input order, and they are
    again the own keys of an object. *)
Theorem convertWorldData_keeps_input_order (worldDataDev : Dev.WorldDataDev) g
    (result : Prod.WorldDataProd) :
  wf (Dev.regions worldDataDev) ->
  outcome (convertWorldData worldDataDev g) = Normal result ->
  keys (Prod.regions result) = keys (filter survives (Dev.regions worldDataDev))
  /\ wf (Prod.regions result).
Proof.
  intros W E. pose proof (convertWorldData_keys worldDataDev g result W E) as K.
  split; [exact K |].
  unfold wf. rewrite K. now apply wfKeys_filter.
Qed.

(** [convertWKTToSVG] under the generator of a projection. *)
Lemma convertWKTToSVG_fitted (projection : Projection) (wkt : string) :
  outcome (convertWKTToSVG wkt (fitted projection))
  = match parse wkt with
    | None => Throw (parseFailure wkt)
    | Some geojson =>
        match geoPath projection geojson with
        | Throw e => Throw e
        | Normal None => Throw (pathFailure wkt)
        | Normal (Some svgPath) =>
            if svgPath =? "" then Throw (pathFailure wkt) else Normal svgPath
        end
    end.
Proof. apply convertWKTToSVG_installed. Qed.

(** X2.  Every region of the returned dataset carries exactly one area,
    [medium-res], and its [areaSVG] is the non-empty path that the generator
    fitted to the whole dataset draws for the medium-res text of the input
    region under the same code; [low-res] and [high-res] are never
    emitted. *)
Theorem convertWorldData_emits_medium_path (worldDataDev : Dev.WorldDataDev) g
    (result : Prod.WorldDataProd) code (regionProd : Prod.RegionProd) :
  wf (Dev.regions worldDataDev) ->
  outcome (convertWorldData worldDataDev g) = Normal result ->
  get (Prod.regions result) code = Some regionProd ->
  exists projection regionDev areasDev areaDev geojson svgPath,
    fitSize (WIDTH, HEIGHT)
      (map (Build_Feature GeoJSON) (allFeatures GeoJSON parse worldDataDev))
    = Normal projection
    /\ get (Dev.regions worldDataDev) code = Some regionDev
    /\ Dev.areas regionDev = Some areasDev
    /\ medium_res areasDev = Some areaDev
    /\ parse (areaWKT areaDev) = Some geojson
    /\ geoPath projection geojson = Normal (Some svgPath)
    /\ svgPath <> ""
    /\ Prod.areas regionProd
       = {| low_res_prod := None;
            medium_res_prod := Some {| areaSVG := svgPath |};
            high_res_prod := None |}.
Proof.
  intros W E G.
  destruct (convertWorldData_returns worldDataDev g result E) as [projection F].
  pose proof (ConvertClaims.convertWorldData_run parse fitSize geoPath worldDataDev g W)
    as R.
  rewrite F in R. destruct R as [_ R].
  rewrite E in R. destruct R as (_ & _ & _ & Hget & _).
  rewrite Hget in G.
  destruct (get (Dev.regions worldDataDev) code) as [regionDev |]; [| discriminate].
  destruct (qualifies code regionDev); [| discriminate].
  unfold converted in G. rewrite convertRegionDev_outcome in G.
  destruct (Dev.areas regionDev) as [areasDev |] eqn:Ha; [| discriminate].
  destruct (medium_res areasDev) as [areaDev |] eqn:Hm; [| discriminate].
  rewrite convertWKTToSVG_fitted in G.
  destruct (parse (areaWKT areaDev)) as [geojson |] eqn:Hp; [| discriminate].
  destruct (geoPath projection geojson) as [[svgPath |] | e] eqn:P; try discriminate.
  destruct (String.eqb_spec svgPath "") as [-> | N]; [discriminate |].
  injection G as <-.
  exists projection, regionDev, areasDev, areaDev, geojson, svgPath.
  repeat split; auto.
Qed.

(** X3.  When [convertWorldData] throws, the exception is the one [fitSize]
    has thrown, before any region was converted, or it comes from the first
    region, in input order, that passes the test of the loop and cannot be
    converted: the parse failure of its medium-res text, the exception the
    path generator has thrown on its geometry, or the path failure when the
    generator has returned [null] or the empty string.  Every qualifying
    region before it had been converted; the test of the loop rules out the
    [TypeError] of a region without [areas] or [medium-res]. *)
Theorem convertWorldData_first_failure (worldDataDev : Dev.WorldDataDev) g
    (e : Exception) :
  wf (Dev.regions worldDataDev) ->
  outcome (convertWorldData worldDataDev g) = Throw e ->
  fit worldDataDev = Throw e
  \/ exists projection before code regionDev after areasDev areaDev,
       fit worldDataDev = Normal projection
       /\ Dev.regions worldDataDev = before ++ (code, regionDev) :: after
       /\ (forall code' regionDev',
             In (code', regionDev') before -> included code' regionDev' ->
             exists regionProd,
               outcome (convertRegionDev regionDev' (fitted projection))
               = Normal regionProd)
       /\ String.length code <= 3
       /\ Dev.areas regionDev = Some areasDev
       /\ medium_res areasDev = Some areaDev
       /\ ((parse (areaWKT areaDev) = None /\ e = parseFailure (areaWKT areaDev))
           \/ exists geojson,
                parse (areaWKT areaDev) = Some geojson
                /\ (geoPath projection geojson = Throw e
                    \/ ((geoPath projection geojson = Normal None
                         \/ geoPath projection geojson = Normal (Some ""))
                        /\ e = pathFailure (areaWKT areaDev)))).
Proof.
  intros W E.
  destruct (fit worldDataDev) as [projection | e0] eqn:F.
  - right.
    pose proof (convertWorldData_closed worldDataDev g projection W F) as C.
    rewrite E in C.
    destruct C as (before & code & regionDev & after & Hsplit & Hb & Q & T).
    apply qualifies_iff_included in Q as (Hlen & areasDev & areaDev & Ha & Hm).
    exists projection, before, code, regionDev, after, areasDev, areaDev.
    split; [reflexivity |]. split; [exact Hsplit |].
    split.
    { intros code' regionDev' I Hi. apply (Hb code' regionDev' I).
      now apply qualifies_iff_included. }
    split; [exact Hlen |]. split; [exact Ha |]. split; [exact Hm |].
    rewrite convertRegionDev_outcome, Ha, Hm, convertWKTToSVG_fitted in T.
    destruct (parse (areaWKT areaDev)) as [geojson |].
    + right. exists geojson. split; [reflexivity |].
      destruct (geoPath projection geojson) as [[svgPath |] | e1].
      * destruct (svgPath =? "") eqn:Empty; [| discriminate].
        apply String.eqb_eq in Empty. subst svgPath.
        right. split; [now right | congruence].
      * right. split; [now left | congruence].
      * left. congruence.
    + left. split; [reflexivity | congruence].
  - left. rewrite (ConvertClaims.convertWorldData_loop parse fitSize geoPath), F in E.
    simpl in E. congruence.
Qed.

(** X4.  [initializeGlobalProjection] is the only writer of
    [globalPathGenerator]: the conversion loop leaves it as it finds it.
    Whatever it held before the run, when [convertWorldData] ends, by
    returning or by throwing, it holds the generator of the projection that
    [fitSize] has returned, or, when [fitSize] has thrown, what it held
    before; and the outcome of the run does not depend on what it held
    before. *)
Theorem convertWorldData_installs_generator (worldDataDev : Dev.WorldDataDev) g :
  (forall todo worldDataProd g',
     globalsAfter (convertRegions worldDataDev todo worldDataProd g') = g')
  /\ outcome (convertWorldData worldDataDev g)
     = outcome (convertWorldData worldDataDev (uninitialized GeoJSON))
  /\ match fit worldDataDev with
     | Normal projection =>
         globalsAfter (convertWorldData worldDataDev g) = fitted projection
     | Throw e => convertWorldData worldDataDev g = (Throw e, g)
     end.
Proof.
  split; [intros; apply convertRegions_frame |].
  rewrite !(ConvertClaims.convertWorldData_loop parse fitSize geoPath).
  destruct (fit worldDataDev) as [projection | e].
  - split; [reflexivity | apply convertRegions_frame].
  - split; reflexivity.
Qed.

(** A qualifying region converts exactly when its medium-res text is read
    and drawn. *)
Lemma convertRegionDev_fitted (projection : Projection)
    (regionDev : Dev.RegionDev) (areasDev : AreasDev) (areaDev : AreaDev) :
  Dev.areas regionDev = Some areasDev ->
  medium_res areasDev = Some areaDev ->
  (exists regionProd,
     outcome (convertRegionDev regionDev (fitted projection)) = Normal regionProd)
  <-> exists geojson svgPath,
        parse (areaWKT areaDev) = Some geojson
        /\ geoPath projection geojson = Normal (Some svgPath)
        /\ svgPath <> "".
Proof.
  intros Ha Hm. rewrite convertRegionDev_outcome, Ha, Hm, convertWKTToSVG_fitted.
  destruct (parse (areaWKT areaDev)) as [geojson |].
  - destruct (geoPath projection geojson) as [[svgPath |] | e] eqn:P.
    + destruct (String.eqb_spec svgPath "") as [-> | N].
      * split; [intros [? H]; discriminate |].
        intros (geojson' & svgPath' & [= <-] & H & N). congruence.
      * split; [intros _; eauto |]. eauto.
    + split; [intros [? H]; discriminate |].
      intros (geojson' & svgPath' & [= <-] & H & _). congruence.
    + split; [intros [? H]; discriminate |].
      intros (geojson' & svgPath' & [= <-] & H & _). congruence.
  - split; [intros [? H]; discriminate |].
    intros (geojson' & svgPath' & H & _). discriminate.
Qed.

(** X7.  [convertWorldData] returns a dataset exactly when [fitSize]
    returns a projection for the high-res geometries it was given and, for
    every region that passes the test of the loop, the medium-res text is
    read by [parse] and the generator of that projection returns a non-empty
    path for it. *)
Theorem convertWorldData_returns_iff (worldDataDev : Dev.WorldDataDev) g :
  wf (Dev.regions worldDataDev) ->
  (exists result, outcome (convertWorldData worldDataDev g) = Normal result)
  <-> (exists projection,
         fitSize (WIDTH, HEIGHT)
           (map (Build_Feature GeoJSON) (allFeatures GeoJSON parse worldDataDev))
         = Normal projection
         /\ forall code regionDev areasDev areaDev,
              get (Dev.regions worldDataDev) code = Some regionDev ->
              String.length code <= 3 ->
              Dev.areas regionDev = Some areasDev ->
              medium_res areasDev = Some areaDev ->
              exists geojson svgPath,
                parse (areaWKT areaDev) = Some geojson
                /\ geoPath projection geojson = Normal (Some svgPath)
                /\ svgPath <> "").
Proof.
  intros W.
  pose proof (ConvertClaims.convertWorldData_run parse fitSize geoPath worldDataDev g W)
    as R.
  change (fitSize (WIDTH, HEIGHT)
            (map (Build_Feature GeoJSON) (allFeatures GeoJSON parse worldDataDev)))
    with (fit worldDataDev).
  split.
  - intros [result E].
    destruct (fit worldDataDev) as [projection | e];
      [| rewrite R in E; discriminate E].
    exists projection. split; [reflexivity |].
    intros code regionDev areasDev areaDev G Hlen Ha Hm.
    destruct R as [_ R]. rewrite E in R. destruct R as (_ & _ & _ & _ & Hall).
    apply (convertRegionDev_fitted projection regionDev areasDev areaDev Ha Hm).
    apply (Hall code regionDev G).
    apply qualifies_iff_included. split; eauto.
  - intros (projection & F & H). rewrite F in R. destruct R as [_ R].
    destruct (outcome (convertWorldData worldDataDev g)) as [result | e]; [eauto |].
    destruct R as (code & regionDev & G & Q & T). exfalso.
    apply qualifies_iff_included in Q as (Hlen & areasDev & areaDev & Ha & Hm).
    destruct (proj2 (convertRegionDev_fitted projection regionDev areasDev areaDev
                       Ha Hm) (H code regionDev areasDev areaDev G Hlen Ha Hm))
      as [regionProd E].
    congruence.
Qed.
End Batch.

(** **** On sample data *)

Lemma convertRegionDev_TypeError_witness :
  outcome (Toy.convertRegionDev ConvertSamples.pointed
             {| globalPathGenerator := Some (Toy.geoPath 0) |})
  = Throw Toy.ringError
  /\ outcome (Toy.convertRegionDev ConvertSamples.lowOnly
                {| globalPathGenerator := Some (Toy.geoPath 0) |})
     = Throw (TypeError "Cannot read properties of undefined (reading 'areaWKT')").
Proof.
  split.
  - apply (convertRegionDev_TypeError Toy.parse (Toy.geoPath 0) ConvertSamples.pointed).
    right. right. eexists _, _, Toy.onePoint. repeat split.
  - apply (convertRegionDev_TypeError Toy.parse (Toy.geoPath 0) ConvertSamples.lowOnly).
    right. left. eexists. repeat split.
Defined.

Lemma convertWorldData_returns_iff_witness :
  wf (Dev.regions ConvertSamples.twoRegions)
  /\ exists result,
       outcome (Toy.convertWorldData ConvertSamples.twoRegions (uninitialized _))
       = Normal result.
Proof.
  split; [reflexivity |].
  apply (convertWorldData_returns_iff Toy.parse Toy.fitSize Toy.geoPath
           ConvertSamples.twoRegions (uninitialized _) eq_refl).
  exists 1. split; [reflexivity |].
  intros code regionDev areasDev areaDev G Hlen Ha Hm. simpl in G.
  destruct (code =? "low") eqn:E1.
  - injection G as <-. simpl in Ha. injection Ha as <-. discriminate Hm.
  - destruct (code =? "can") eqn:E2; [| discriminate G].
    injection G as <-. simpl in Ha. injection Ha as <-. simpl in Hm.
    injection Hm as <-.
    exists StripSamples.polygon, "M0,0L10,0L10,10L0,10Z".
    repeat split. discriminate.
Defined.

Lemma convertWorldData_keeps_input_order_witness :
  wf (Dev.regions StripSamples.world)
  /\ exists result,
       outcome (Toy.convertWorldData StripSamples.world (uninitialized _))
       = Normal result
       /\ keys (Prod.regions result) = ["can"; "atl"]
       /\ wf (Prod.regions result).
Proof.
  split; [reflexivity |].
  eexists. split; [vm_compute; reflexivity |].
  split; [reflexivity |].
  eapply (convertWorldData_keeps_input_order Toy.parse Toy.fitSize Toy.geoPath
            StripSamples.world (uninitialized _)); reflexivity.
Defined.

Lemma convertWorldData_emits_medium_path_witness :
  wf (Dev.regions ConvertSamples.twoRegions)
  /\ exists result regionProd svgPath,
       outcome (Toy.convertWorldData ConvertSamples.twoRegions (uninitialized _))
       = Normal result
       /\ get (Prod.regions result) "can" = Some regionProd
       /\ svgPath <> ""
       /\ Prod.areas regionProd
          = {| low_res_prod := None;
               medium_res_prod := Some {| areaSVG := svgPath |};
               high_res_prod := None |}.
Proof.
  split; [reflexivity |]. unfold Toy.convertWorldData.
  destruct (outcome (Convert.convertWorldData Toy.GeoJSON Toy.parse Toy.Projection
                       Toy.fitSize Toy.geoPath ConvertSamples.twoRegions
                       (uninitialized _))) as [result | e] eqn:E;
    [| vm_compute in E; discriminate E].
  destruct (get (Prod.regions result) "can") as [regionProd |] eqn:G;
    [| vm_compute in E; injection E as <-; vm_compute in G; discriminate G].
  destruct (convertWorldData_emits_medium_path Toy.parse Toy.fitSize Toy.geoPath
              ConvertSamples.twoRegions (uninitialized _) result "can" regionProd
              eq_refl E G)
    as (_ & _ & _ & _ & _ & svgPath & _ & _ & _ & _ & _ & _ & N & A).
  exists result, regionProd, svgPath. repeat split; assumption.
Defined.

Lemma convertWorldData_first_failure_witness :
  wf (Dev.regions ConvertSamples.onePointMedium)
  /\ outcome (Toy.convertWorldData ConvertSamples.onePointMedium (uninitialized _))
     = Throw Toy.ringError
  /\ Convert.fit Toy.parse Toy.fitSize ConvertSamples.onePointMedium = Normal 1
  /\ exists before code regionDev after,
       Dev.regions ConvertSamples.onePointMedium = before ++ (code, regionDev) :: after
       /\ String.length code <= 3.
Proof.
  split; [reflexivity |]. split; [reflexivity |]. split; [reflexivity |].
  destruct (convertWorldData_first_failure Toy.parse Toy.fitSize Toy.geoPath
              ConvertSamples.onePointMedium (uninitialized _) Toy.ringError
              eq_refl eq_refl)
    as [F | (projection & before & code & regionDev & after & _ & _ & _ & S & _ & L & _)].
  - discriminate F.
  - exists before, code, regionDev, after. split; [exact S | exact L].
Defined.

Lemma convertWorldData_installs_generator_witness :
  globalsAfter (Toy.convertWorldData ConvertSamples.twoRegions
                  {| globalPathGenerator := Some (Toy.geoPath 7) |})
  = {| globalPathGenerator := Some (Toy.geoPath 1) |}
  /\ Toy.convertWorldData ConvertSamples.onePointHighRes
       {| globalPathGenerator := Some (Toy.geoPath 7) |}
     = (Throw Toy.ringError, {| globalPathGenerator := Some (Toy.geoPath 7) |}).
Proof.
  split.
  - destruct (convertWorldData_installs_generator Toy.parse Toy.fitSize Toy.geoPath
                ConvertSamples.twoRegions {| globalPathGenerator := Some (Toy.geoPath 7) |})
      as (_ & _ & G).
    exact G.
  - destruct (convertWorldData_installs_generator Toy.parse Toy.fitSize Toy.geoPath
                ConvertSamples.onePointHighRes
                {| globalPathGenerator := Some (Toy.geoPath 7) |})
      as (_ & _ & G).
    exact G.
Defined.
End ConvertMore.

(** ** sort-regions: values, order and counts *)

Module SortMore.
Import JS SortFacts ObjFacts ObjMore SortRegions SortRegionsFacts KeyOrder Further.

Section Facts.
Context {V : Type}.
Implicit Types (regions acc o : Obj V) (L : list string).

Lemma keys_mapValues (f : V -> V) o : keys (mapValues f o) = keys o.
Proof.
  unfold keys, mapValues. rewrite map_map. now apply map_ext.
Qed.

Lemma get_mapValues (f : V -> V) o k :
  get (mapValues f o) k = option_map f (get o k).
Proof.
  induction o as [| [k0 v0] o IH]; simpl; [reflexivity |].
  now destruct (k =? k0).
Qed.

Lemma define_mapValues (f : V -> V) o k v :
  define k (f v) (mapValues f o) = mapValues f (define k v o).
Proof.
  induction o as [| [k0 v0] o IH]; simpl; [reflexivity |].
  destruct (k =? k0); [reflexivity |].
  destruct (comesBefore k k0); [reflexivity |].
  simpl. now rewrite IH.
Qed.

Lemma fold_assign_mapValues (f : V -> V) regions L : forall acc,
  fold_left (assign (mapValues f regions)) L (mapValues f acc)
  = mapValues f (fold_left (assign regions) L acc).
Proof.
  induction L as [| k L IH]; intros acc; simpl; [reflexivity |].
  rewrite <- IH. f_equal.
  unfold assign, set. rewrite get_mapValues.
  destruct (get regions k) as [v |]; simpl; [| reflexivity].
  destruct (k =? proto); [reflexivity | apply define_mapValues].
Qed.

Lemma sortedKeys_mapValues (f : V -> V) regions :
  sortedKeys (mapValues f regions) = sortedKeys regions.
Proof.
  unfold sortedKeys, threeCharKeys, longerKeys, pushed.
  now rewrite keys_mapValues.
Qed.

(** In the own keys of an object the array indices come first, in
    ascending numeric order. *)
Lemma wfKeys_split L :
  wfKeys L = true ->
  L = filter isArrayIndex L ++ filter nonIndex L
  /\ StronglySorted indexLt (filter isArrayIndex L).
Proof.
  induction L as [| k L IH]; intros W; [split; [reflexivity | constructor] |].
  apply wfKeys_cons in W as [W1 W2]. destruct (IH W2) as [IH1 IH2].
  simpl. unfold nonIndex at 1. destruct (isArrayIndex k) eqn:Ik; simpl.
  - split; [now rewrite <- IH1 |].
    constructor; [exact IH2 |].
    apply Forall_forall. intros x Hx. apply filter_In in Hx as [Hx Ix].
    specialize (W1 x Hx). apply inOrder_spec in W1 as [_ W1].
    unfold indexLt. unfold isArrayIndex in Ik, Ix.
    destruct (arrayIndex k), (arrayIndex x); try discriminate. exact W1.
  - assert (E : filter isArrayIndex L = []).
    { destruct (filter isArrayIndex L) as [| x l] eqn:F; [reflexivity |].
      assert (Hx : In x (filter isArrayIndex L)) by (rewrite F; now left).
      apply filter_In in Hx as [Hx Ix].
      specialize (W1 x Hx). apply inOrder_spec in W1 as [_ W1].
      unfold isArrayIndex in Ik, Ix.
      destruct (arrayIndex k), (arrayIndex x); try discriminate. contradiction. }
    rewrite E in *. simpl in *. split; [now rewrite <- IH1 | constructor].
Qed.

(** X8.  Sorting never changes the value stored under a key: in the
    rewritten mapping every key of the input other than [__proto__] holds
    the region it held before, and no other key is defined. *)
Theorem sortedRegions_lookup regions (key : string) :
  wf regions ->
  get (sortedRegions regions) key = if key =? proto then None else get regions key.
Proof.
  intros W. apply wf_NoDup in W.
  pose proof (keys_sortedRegions_perm regions W) as P.
  destruct (String.eqb_spec key proto) as [-> | N].
  - apply get_None. intros I.
    apply (Permutation_in _ P), filter_In in I as [_ I].
    unfold notProto in I. now rewrite String.eqb_refl in I.
  - destruct (get regions key) as [v |] eqn:G.
    + rewrite <- G. unfold sortedRegions.
      apply get_Some_key in G.
      apply get_fold_assign; [| exact N | exact G].
      eapply Permutation_in; [apply Permutation_sym, sortedKeys_perm | exact G].
    + apply get_None. apply get_None in G. intros I. apply G.
      apply (Permutation_in _ P), filter_In in I as [I _]. exact I.
Qed.

(** X9.  The order of the rewritten mapping, for every input: its own keys
    are the array indices among the input keys, in ascending numeric order,
    followed by the remaining keys other than [__proto__] in the order of
    [sortedKeys] (3-character keys alphabetically, then the others
    alphabetically). *)
Theorem sortedRegions_enumeration regions :
  wf regions ->
  wf (sortedRegions regions)
  /\ keys (sortedRegions regions)
     = filter isArrayIndex (keys (sortedRegions regions))
       ++ filter nonIndex (filter notProto (sortedKeys regions))
  /\ StronglySorted indexLt (filter isArrayIndex (keys (sortedRegions regions)))
  /\ (forall key,
        In key (filter isArrayIndex (keys (sortedRegions regions))) <->
        In key (keys regions) /\ isArrayIndex key = true).
Proof.
  intros W. apply wf_NoDup in W.
  pose proof (sortedRegions_wf regions) as Wout.
  destruct (wfKeys_split _ Wout) as [S1 S2].
  assert (F : filter nonIndex (keys (sortedRegions regions))
              = filter nonIndex (filter notProto (sortedKeys regions))).
  { unfold sortedRegions. rewrite nonIndex_keys_fold; simpl.
    - reflexivity.
    - now apply sortedKeys_NoDup.
    - intros x Hx. eapply Permutation_in; [apply sortedKeys_perm | exact Hx]. }
  split; [exact Wout |]. split; [now rewrite <- F |]. split; [exact S2 |].
  intros key. rewrite filter_In.
  pose proof (keys_sortedRegions_perm regions W) as P.
  split.
  - intros [I Ik]. split; [| exact Ik].
    apply (Permutation_in _ P), filter_In in I. tauto.
  - intros [I Ik]. split; [| exact Ik].
    apply (Permutation_in _ (Permutation_sym P)), filter_In. split; [exact I |].
    unfold notProto. apply negb_true_iff, String.eqb_neq. intros ->.
    discriminate Ik.
Qed.

(** X10.  The numbers the script logs are the count of input keys of
    exactly 3 characters, the count of the other input keys, and the number
    of regions read; the number of regions written is the number of keys
    other than [__proto__]. *)
Theorem loggedCounts_add_up regions :
  wf regions ->
  loggedCounts regions
  = (List.length (filter isThreeChar (keys regions)),
     List.length (filter (fun key => negb (isThreeChar key)) (keys regions)),
     List.length regions)
  /\ List.length (filter isThreeChar (keys regions))
     + List.length (filter (fun key => negb (isThreeChar key)) (keys regions))
     = List.length regions
  /\ List.length (sortedRegions regions)
     = List.length (filter notProto (keys regions)).
Proof.
  intros W. apply wf_NoDup in W.
  assert (T : List.length (sortedKeys regions) = List.length regions).
  { rewrite (Permutation_length (sortedKeys_perm regions)).
    unfold keys. apply length_map. }
  assert (A : List.length (threeCharKeys regions)
              = List.length (filter isThreeChar (keys regions))).
  { rewrite threeCharKeys_eq. apply Permutation_length, sort_perm. }
  assert (B : List.length (longerKeys regions)
              = List.length (filter (fun key => negb (isThreeChar key)) (keys regions))).
  { rewrite longerKeys_eq. apply Permutation_length, sort_perm. }
  split; [unfold loggedCounts; now rewrite A, B, T |].
  split.
  { rewrite <- A, <- B, <- T. unfold sortedKeys. now rewrite length_app. }
  rewrite <- (Permutation_length (keys_sortedRegions_perm regions W)).
  unfold keys. now rewrite length_map.
Qed.

(** X11.  The rewritten mapping is canonical: two inputs that hold the same
    key-value pairs, in whatever order, are rewritten to the same
    mapping. *)
Theorem sortedRegions_canonical regions (regions' : Obj V) :
  wf regions -> wf regions' ->
  Permutation regions regions' ->
  sortedRegions regions = sortedRegions regions'.
Proof.
  intros W W' P. apply wf_NoDup in W, W'.
  assert (Pk : Permutation (keys regions) (keys regions'))
    by (unfold keys; now apply Permutation_map).
  assert (K : sortedKeys regions = sortedKeys regions').
  { unfold sortedKeys. rewrite !threeCharKeys_eq, !longerKeys_eq.
    f_equal; apply sort_unique; try apply sort_sorted;
      (etransitivity; [apply filter_perm; exact Pk |]);
      apply Permutation_sym, sort_perm. }
  unfold sortedRegions. rewrite K. apply fold_assign_ext. intros k _.
  destruct (get regions k) as [v |] eqn:G.
  - symmetry. apply In_get; [exact W' |].
    eapply Permutation_in; [exact P |]. now apply get_In.
  - symmetry. apply get_None. apply get_None in G. intros I. apply G.
    eapply Permutation_in; [apply Permutation_sym; exact Pk | exact I].
Qed.
End Facts.

Lemma sortedRegions_canonical_witness :
  wf Samples.fiveRegions
  /\ wf (rev Samples.fiveRegions)
  /\ sortedRegions Samples.fiveRegions = sortedRegions (rev Samples.fiveRegions).
Proof.
  split; [reflexivity |]. split; [reflexivity |].
  apply sortedRegions_canonical; try reflexivity.
  apply Permutation_rev.
Defined.

Lemma sortedRegions_lookup_witness :
  wf Samples.indexKeyed
  /\ get (sortedRegions Samples.indexKeyed) "1000" = Some (Samples.named "Thousand").
Proof.
  split; [reflexivity |].
  exact (sortedRegions_lookup Samples.indexKeyed "1000" eq_refl).
Defined.

Lemma sortedRegions_enumeration_witness :
  wf Samples.indexKeyed
  /\ keys (sortedRegions Samples.indexKeyed)
     = filter isArrayIndex (keys (sortedRegions Samples.indexKeyed))
       ++ filter nonIndex (filter notProto (sortedKeys Samples.indexKeyed)).
Proof.
  split; [reflexivity |].
  destruct (sortedRegions_enumeration Samples.indexKeyed eq_refl) as (_ & K & _).
  exact K.
Defined.

Lemma loggedCounts_add_up_witness :
  wf Samples.shortKeyed
  /\ loggedCounts Samples.shortKeyed = (2, 3, 5)
  /\ List.length (sortedRegions Samples.shortKeyed) = 5.
Proof.
  split; [reflexivity |].
  destruct (loggedCounts_add_up Samples.shortKeyed eq_refl) as (C & _ & L).
  split; [exact C | exact L].
Defined.
End SortMore.

(** ** The stripping loop, alone and with the other scripts *)

Module StripMore.
Import JS ObjFacts ObjMore Dev StripHighRes Convert Further SortMore.

Lemma strip_idempotent (region : RegionDev) : strip (strip region) = strip region.
Proof.
  unfold strip. destruct (areas region) as [a |] eqn:A.
  - destruct (high_res a) as [h |] eqn:H; simpl.
    + reflexivity.
    + now rewrite A, H.
  - now rewrite A.
Qed.

Lemma stripRegions_mapValues (regions : Obj RegionDev) :
  wf regions -> stripRegions regions = mapValues strip regions.
Proof.
  intros W. apply StripHighResClaims.stripRegions_map. now apply wf_NoDup.
Qed.

Lemma mapValues_wf (f : RegionDev -> RegionDev) (regions : Obj RegionDev) :
  wf regions -> wf (mapValues f regions).
Proof. unfold wf. now rewrite keys_mapValues. Qed.

(** X12.  Stripping is idempotent: run on the dataset it has written, the
    loop changes nothing. *)
Theorem stripData_idempotent (data : WorldDataDev) :
  wf (regions data) -> stripData (stripData data) = stripData data.
Proof.
  intros W. unfold stripData. simpl. f_equal.
  rewrite (stripRegions_mapValues (regions data) W).
  rewrite stripRegions_mapValues by now apply mapValues_wf.
  unfold mapValues. rewrite map_map. apply map_ext.
  intros [code region]. simpl. now rewrite strip_idempotent.
Qed.

(** X13.  Sorting and stripping commute: sorting the stripped regions gives
    the mapping that stripping the sorted regions gives. *)
Theorem sort_strip_commute (regions : Obj RegionDev) :
  wf regions ->
  SortRegions.sortedRegions (stripRegions regions)
  = stripRegions (SortRegions.sortedRegions regions).
Proof.
  intros W.
  rewrite (stripRegions_mapValues regions W).
  rewrite (stripRegions_mapValues _ (SortRegionsFacts.sortedRegions_wf regions)).
  unfold SortRegions.sortedRegions. rewrite sortedKeys_mapValues.
  apply (fold_assign_mapValues strip regions (SortRegions.sortedKeys regions) []).
Qed.

Section Projection.
Context {GeoJSON : Type} (parse : string -> option GeoJSON).
Context {Projection : Type}.
Context (fitSize : Z * Z -> FeatureCollection GeoJSON -> Completion Projection).
Context (geoPath : Projection -> GeoJSON -> Completion (option string)).

Local Abbreviation convertWorldData :=
  (Convert.convertWorldData GeoJSON parse Projection fitSize geoPath).
Local Abbreviation initializeGlobalProjection :=
  (Convert.initializeGlobalProjection GeoJSON parse Projection fitSize geoPath).

Lemma collect_strip (features : list GeoJSON) (region : RegionDev) :
  collect GeoJSON parse features (strip region) = collect GeoJSON parse features region.
Proof.
  unfold collect, strip. destruct (areas region) as [a |] eqn:A.
  - destruct (high_res a) as [h |] eqn:H; simpl; [reflexivity | now rewrite A, H].
  - now rewrite A.
Qed.

Lemma allFeatures_strip (data : WorldDataDev) :
  wf (regions data) ->
  allFeatures GeoJSON parse (stripData data) = allFeatures GeoJSON parse data.
Proof.
  intros W. unfold allFeatures, stripData. simpl.
  rewrite (stripRegions_mapValues (regions data) W). clear W.
  assert (H : forall (l : Obj RegionDev) features,
            fold_left (collect GeoJSON parse) (values (mapValues strip l)) features
            = fold_left (collect GeoJSON parse) (values l) features).
  { induction l as [| [code region] l IH]; intros features; simpl; [reflexivity |].
    rewrite collect_strip. apply IH. }
  apply H.
Qed.

(** X14.  The projection needs the high-res areas only: on the stripped
    dataset [initializeGlobalProjection] collects the same geometries and
    installs the same path generator as on the full dataset. *)
Theorem initializeGlobalProjection_after_strip (data : WorldDataDev)
    (g : Globals GeoJSON) :
  wf (regions data) ->
  allFeatures GeoJSON parse (stripData data) = allFeatures GeoJSON parse data
  /\ initializeGlobalProjection (stripData data) g = initializeGlobalProjection data g.
Proof.
  intros W. pose proof (allFeatures_strip data W) as A. split; [exact A |].
  unfold Convert.initializeGlobalProjection. now rewrite A.
Qed.

Lemma survives_strip (code : string) (region : RegionDev) :
  survives (code, strip region) = survives (code, region) && negb (hasHighRes region).
Proof.
  unfold survives, qualifies, hasHighRes, strip. simpl.
  destruct (areas region) as [a |] eqn:A.
  - destruct (high_res a) as [h |] eqn:H; simpl.
    + now rewrite !andb_false_r.
    + now rewrite A, andb_true_r.
  - now rewrite A, andb_true_r.
Qed.

(** X15.  The stripped dataset is no input for the converter: run on it,
    [convertWorldData] emits, in input order, the regions that pass the test
    of the loop and have no high-res area; a region with a high-res area
    has lost its medium-res geometry and is skipped. *)
Theorem convertWorldData_after_strip (data : WorldDataDev) (g : Globals GeoJSON)
    (result : Prod.WorldDataProd) :
  wf (regions data) ->
  outcome (convertWorldData (stripData data) g) = Normal result ->
  keys (Prod.regions result)
  = keys (filter (fun entry => survives entry && negb (hasHighRes (snd entry)))
            (regions data)).
Proof.
  intros W E.
  assert (W' : wf (regions (stripData data))).
  { simpl. rewrite (stripRegions_mapValues _ W). now apply mapValues_wf. }
  rewrite (ConvertMore.convertWorldData_keys parse fitSize geoPath _ g result W' E).
  simpl. rewrite (stripRegions_mapValues _ W).
  clear. induction (regions data) as [| [code region] l IH]; [reflexivity |].
  simpl. rewrite survives_strip.
  destruct (survives (code, region) && negb (hasHighRes region)); simpl;
    now rewrite IH.
Qed.
End Projection.

Lemma stripData_idempotent_witness :
  wf (regions StripSamples.world)
  /\ stripData (stripData StripSamples.world) = stripData StripSamples.world.
Proof.
  split; [reflexivity |]. apply stripData_idempotent. reflexivity.
Defined.

Lemma sort_strip_commute_witness :
  wf (regions StripSamples.world)
  /\ SortRegions.sortedRegions (stripRegions (regions StripSamples.world))
     = stripRegions (SortRegions.sortedRegions (regions StripSamples.world)).
Proof.
  split; [reflexivity |]. apply sort_strip_commute. reflexivity.
Defined.

Lemma initializeGlobalProjection_after_strip_witness :
  wf (regions ConvertSamples.twoRegions)
  /\ Toy.initializeGlobalProjection (stripData ConvertSamples.twoRegions)
       (uninitialized _)
     = Toy.initializeGlobalProjection ConvertSamples.twoRegions (uninitialized _).
Proof.
  split; [reflexivity |].
  destruct (initializeGlobalProjection_after_strip Toy.parse Toy.fitSize Toy.geoPath
              ConvertSamples.twoRegions (uninitialized _) eq_refl) as [_ I].
  exact I.
Defined.

Lemma convertWorldData_after_strip_witness :
  wf (regions StripSamples.world)
  /\ keys (filter survives (regions StripSamples.world)) = ["can"; "atl"]
  /\ exists result,
       outcome (Toy.convertWorldData (stripData StripSamples.world)
                  (uninitialized _))
       = Normal result
       /\ keys (Prod.regions result) = ["atl"].
Proof.
  split; [reflexivity |]. split; [reflexivity |].
  eexists. split; [vm_compute; reflexivity |].
  rewrite (convertWorldData_after_strip Toy.parse Toy.fitSize Toy.geoPath
             StripSamples.world (uninitialized _)); reflexivity.
Defined.
End StripMore.
